(** * Scheduling glue of cal.com: a shallow embedding and its properties

    The development follows four source units:
    - [packages/lib/domainWideDelegation/server.ts]: the credential builder,
      the credential merger, the per-organization resolver, user and host
      enrichment and the credential lookup utilities;
    - the slot query normalizer ([SlotsInputService_2024_09_04]);
    - the CSRF token manager ([RealCSRF]);
    - the internal note writer ([handleInternalNote]).

    JavaScript values are modelled as follows.  A [number] that holds an
    identifier is a [Z]; [string | null | undefined] is an [option string]
    (the code never distinguishes [null] from [undefined] on the paths
    modelled here); the truthiness tests of the source ([!x], [x ? a : b])
    are written out with [truthy_str] and [truthy_num], since the empty
    string and the number zero are falsy in JavaScript. *)

From Stdlib Require Import ZArith String Ascii List Bool Lia.
From stdpp Require Import gmap strings list.
Import ListNotations.
Local Open Scope string_scope.
Local Open Scope Z_scope.
Local Open Scope list_scope.

(** ** JavaScript truthiness *)

(** [!!s] for [s : string | null | undefined]. *)
Definition truthy_str (s : option string) : bool :=
  match s with
  | Some s => negb (String.eqb s "")
  | None => false
  end.

(** [!!n] for [n : number | null | undefined] holding an integer. *)
Definition truthy_num (n : option Z) : bool :=
  match n with
  | Some n => negb (Z.eqb n 0)
  | None => false
  end.

Lemma truthy_str_Some (s : option string) :
  truthy_str s = true -> exists v, s = Some v /\ v <> "".
Proof.
  destruct s as [v|]; simpl; [|discriminate].
  intros H. exists v. split; [reflexivity|].
  intros ->. discriminate.
Qed.

Lemma truthy_num_Some (n : option Z) :
  truthy_num n = true -> exists v, n = Some v /\ v <> 0.
Proof.
  destruct n as [v|]; simpl; [|discriminate].
  intros H. exists v. split; [reflexivity|].
  intros ->. discriminate.
Qed.

(** [s.split(sep)] for a one-character separator: the pieces between the
    occurrences of [sep], in order; the empty string gives one empty piece. *)
Fixpoint split (sep : ascii) (s : string) : list string :=
  match s with
  | EmptyString => [EmptyString]
  | String c s' =>
      if Ascii.eqb c sep then EmptyString :: split sep s'
      else match split sep s' with
           | [] => [String c EmptyString]
           | piece :: pieces => String c piece :: pieces
           end
  end.

(** [s.endsWith(suffix)]. *)
Definition endsWith (s suffix : string) : bool :=
  let n := String.length s in
  let m := String.length suffix in
  Nat.leb m n && String.eqb (String.substring (n - m) m s) suffix.

(** [HttpError] of [@calcom/lib/http-error]: the two fields that are set. *)
Record HttpError := {
  statusCode : Z;
  message : string;
}.

(** ** Domain-wide delegation: data model *)

Module DomainWideDelegation.

(** The result of a call: the value returned, or the [TypeError] that
    JavaScript raises when a property of [undefined] is read (an [async]
    function then returns a rejected promise). *)
Inductive outcome (A : Type) : Type :=
| Returned (a : A)
| TypeErrorThrown.
Arguments Returned {A} a.
Arguments TypeErrorThrown {A}.

(** A reference to a record held in the store. *)
Abbreviation loc := nat (only parsing).

(** [metadata] of an app of the app store: only [type] and [slug] are read. *)
Record AppMetadata := {
  meta_type : string;
  meta_slug : string;
}.

Section Server.

(** The service-account key is an opaque value for this file. *)
Variable ServiceAccountKey : Type.

(** [googleCalendarMetadata] and [googleMeetMetadata] are imported from the
    app store; their values are not part of this file. *)
Variable googleCalendarMetadata : AppMetadata.
Variable googleMeetMetadata : AppMetadata.

(** [interface DomainWideDelegation] with the [enabled] flag that
    [_buildDwdCredentials] and the resolver require. *)
Record DomainWideDelegation := {
  dwd_id : string;
  dwd_slug : string;                      (* workspacePlatform.slug *)
  dwd_serviceAccountKey : option ServiceAccountKey;
  dwd_enabled : bool;
}.

(** [interface User]. *)
Record User := {
  user_email : string;
  user_id : Z;
}.

(** A credential as the calendar service receives it
    ([CredentialForCalendarService]); stored rows ([CredentialPayload]) use
    the same record. *)
Record Credential := {
  cred_type : string;
  cred_appId : option string;
  cred_id : Z;
  cred_delegatedToId : option string;
  cred_userId : option Z;
  cred_user_email : option string;
  cred_key : string;
  cred_invalid : bool;
  cred_teamId : option Z;
  cred_delegatedTo : option ServiceAccountKey;
}.

Definition _isConferencingCredential (credential : Credential) : bool :=
  endsWith (cred_type credential) "_video"
  || endsWith (cred_type credential) "_conferencing"
  || endsWith (cred_type credential) "_messaging".

Definition _isCalendarCredential (credential : Credential) : bool :=
  endsWith (cred_type credential) "_calendar".

(** [_buildCommonUserCredential] spread under [type] and [appId]. *)
Definition _buildCommonUserCredential (type : string) (appId : string)
    (dwd : DomainWideDelegation) (user : User) : Credential :=
  {| cred_type := type;
     cred_appId := Some appId;
     cred_id := -1;
     cred_delegatedToId := Some (dwd_id dwd);
     cred_userId := Some (user_id user);
     cred_user_email := Some (user_email user);
     cred_key := "NOOP_UNUSED_DELEGATION_TOKEN";
     cred_invalid := false;
     cred_teamId := None;
     cred_delegatedTo := dwd_serviceAccountKey dwd |}.

Definition _buildDwdCalendarCredential (dwd : DomainWideDelegation)
    (user : User) : option Credential :=
  if negb (String.eqb (dwd_slug dwd) "google") then None
  else Some (_buildCommonUserCredential (meta_type googleCalendarMetadata)
               (meta_slug googleCalendarMetadata) dwd user).

Definition _buildDwdConferencingCredential (dwd : DomainWideDelegation)
    (user : User) : option Credential :=
  if negb (String.eqb (dwd_slug dwd) "google") then None
  else Some (_buildCommonUserCredential (meta_type googleMeetMetadata)
               (meta_slug googleMeetMetadata) dwd user).

(** [[a, b].filter((credential) => credential !== null)]. *)
Definition filterNonNull {A : Type} (l : list (option A)) : list A :=
  omap (fun x => x) l.

Definition _buildDwdCredentials (dwd : option DomainWideDelegation)
    (user : User) : list Credential :=
  match dwd with
  | None => []
  | Some dwd =>
      if negb (dwd_enabled dwd) then []
      else filterNonNull [_buildDwdCalendarCredential dwd user;
                          _buildDwdConferencingCredential dwd user]
  end.

(** *** Credential merger *)

(** [isDwdCredential({ credentialId })] is imported from
    [./clientAndServer]: a flag on the numeric identifier of a credential. *)
Variable isDwdCredential : Z -> bool.

(** Modelled from the spec: [buildNonDwdCredential] of
    [./clientAndServer] is not part of this file.  The spec names it the
    non-delegated-credential normalizer and says of a stored credential that
    it has no delegation back-reference (null): the record is copied with
    [delegatedTo] and [delegatedToId] set to null. *)
Definition buildNonDwdCredential (credential : Credential) : Credential :=
  {| cred_type := cred_type credential;
     cred_appId := cred_appId credential;
     cred_id := cred_id credential;
     cred_delegatedToId := None;
     cred_userId := cred_userId credential;
     cred_user_email := cred_user_email credential;
     cred_key := cred_key credential;
     cred_invalid := cred_invalid credential;
     cred_teamId := cred_teamId credential;
     cred_delegatedTo := None |}.

(** Modelled from the spec: [buildNonDwdCredentials] normalizes every
    credential of the list, in order. *)
Definition buildNonDwdCredentials (credentials : list Credential)
    : list Credential :=
  map buildNonDwdCredential credentials.

(** [existingCredentials.filter((cred) => !isDwdCredential({ credentialId: cred.id }))] *)
Definition nonDwdCredentials (existingCredentials : list Credential)
    : list Credential :=
  List.filter (fun cred => negb (isDwdCredential (cred_id cred)))
    existingCredentials.

(** The predicate of [acc.find] in the reducer:
    [c.delegatedToId === credential.delegatedToId && c.appId === credential.appId]. *)
Definition sameDwdAndApp (credential c : Credential) : bool :=
  bool_decide (cred_delegatedToId c = cred_delegatedToId credential)
  && bool_decide (cred_appId c = cred_appId credential).

(** The reducer of [allCredentials.reduce]; [acc.push] appends. *)
Definition uniqueStep (acc : list Credential) (credential : Credential)
    : list Credential :=
  if negb (truthy_str (cred_delegatedToId credential)) then
    acc ++ [credential]
  else
    match find (sameDwdAndApp credential) acc with
    | Some _ => acc
    | None => acc ++ [credential]
    end.

(** [allCredentials.reduce(step, acc)]. *)
Definition uniqueFrom (acc allCredentials : list Credential)
    : list Credential :=
  fold_left uniqueStep allCredentials acc.

Definition buildAllCredentials (dwdCredentials existingCredentials : list Credential)
    : list Credential :=
  let allCredentials :=
    dwdCredentials ++ buildNonDwdCredentials (nonDwdCredentials existingCredentials) in
  uniqueFrom [] allCredentials.

(** *** Credential lookup utilities *)

(** The [id] argument of [getDwdOrFindRegularCredential]. *)
Record FindId := {
  find_credentialId : option Z;
  find_domainWideDelegationCredentialId : option string;
}.

(** The [id] argument of [getDwdOrRegularCredential]. *)
Record LookupId := {
  credentialId : option Z;
  dwdId : option string;
}.

(** [CredentialRepository.findCredentialForCalendarServiceById]: the stored
    credential with that id, or null. *)
Variable findCredentialForCalendarServiceById : Z -> option Credential.

Definition getDwdOrFindRegularCredential (id : FindId)
    (dwdCredentials : list Credential) : option Credential :=
  if truthy_str (find_domainWideDelegationCredentialId id) then
    find (fun cred =>
            bool_decide (cred_delegatedToId cred
                         = find_domainWideDelegationCredentialId id))
      dwdCredentials
  else
    match find_credentialId id with
    | Some n => if negb (Z.eqb n 0) then findCredentialForCalendarServiceById n
                else None
    | None => None
    end.

(** The callback of [credentials.find] in [getDwdOrRegularCredential]. *)
Definition credentialMatches (id : LookupId) (cred : Credential) : bool :=
  if truthy_str (cred_delegatedToId cred) then
    bool_decide (cred_delegatedToId cred = dwdId id)
  else if truthy_num (credentialId id) then
    bool_decide (Some (cred_id cred) = credentialId id)
  else false.

(** [credentials.find(...) || null]. *)
Definition getDwdOrRegularCredential (credentials : list Credential)
    (id : LookupId) : option Credential :=
  find (credentialMatches id) credentials.

(** *** Per-organization delegation resolver *)

(** [DomainWideDelegationRepository.
    findUniqueByOrganizationIdAndDomainIncludeSensitiveServiceAccountKey]:
    the configuration of the organization and domain, or null.  The domain
    is [undefined] when the email has no second piece. *)
Variable findUniqueByOrganizationIdAndDomain :
  Z -> option string -> option DomainWideDelegation.

(** [email.split("@")[1]]. *)
Definition emailDomain (email : string) : option string :=
  split "@" email !! 1%nat.

(** The [for (const user of users)] loop: [credentialsByUserId.set]. *)
Definition credentialsByUserId (dwd : DomainWideDelegation) (users : list User)
    : gmap Z (list Credential) :=
  fold_left
    (fun m user => <[user_id user := _buildDwdCredentials (Some dwd) user]> m)
    users ∅.

Definition _getDwdCredentialsMapPerUser (organizationId : option Z)
    (users : list User) : outcome (gmap Z (list Credential)) :=
  if negb (truthy_num organizationId) then Returned ∅
  else
    match organizationId, users with
    | None, _ => Returned ∅
    | Some _, [] => TypeErrorThrown          (* users[0].email *)
    | Some organizationId, first :: _ =>
        let domain := emailDomain (user_email first) in
        match findUniqueByOrganizationIdAndDomain organizationId domain with
        | None => Returned ∅
        | Some dwd =>
            if negb (dwd_enabled dwd) then Returned ∅
            else Returned (credentialsByUserId dwd users)
        end
    end.

(** *** User and host enrichment *)

(** The fields of a user record other than [id], [email] and
    [credentials], and the fields of a host record other than [user]. *)
Variable UserRest : Type.
Variable HostRest : Type.

(** [TUser extends { id; email; credentials }]. *)
Record TUser := {
  tuser_id : Z;
  tuser_email : string;
  tuser_credentials : list Credential;
  tuser_rest : UserRest;
}.

(** [THost extends Host<TUser>]. *)
Record THost := {
  host_user : TUser;
  host_rest : HostRest;
}.

(** A [TUser] passed where a [User] is expected. *)
Definition asUser (user : TUser) : User :=
  {| user_email := tuser_email user; user_id := tuser_id user |}.

(** The callback of [users.map]:
    [const { credentials, ...rest } = user; return { ...rest, credentials: ... }]. *)
Definition enrichUser (dwdCredentialsMap : gmap Z (list Credential))
    (user : TUser) : TUser :=
  {| tuser_id := tuser_id user;
     tuser_email := tuser_email user;
     tuser_rest := tuser_rest user;
     tuser_credentials :=
       buildAllCredentials
         (default [] (dwdCredentialsMap !! tuser_id user))
         (tuser_credentials user) |}.

(** The callback of [hosts.map]: [{ ...host, user: { ...restUser, credentials: ... } }]. *)
Definition enrichHost (dwdCredentialsMap : gmap Z (list Credential))
    (host : THost) : THost :=
  {| host_rest := host_rest host;
     host_user := enrichUser dwdCredentialsMap (host_user host) |}.

Definition enrichUsersWithDwdCredentials (orgId : option Z)
    (users : list TUser) : outcome (list TUser) :=
  match _getDwdCredentialsMapPerUser orgId (map asUser users) with
  | TypeErrorThrown => TypeErrorThrown
  | Returned dwdCredentialsMap =>
      Returned (map (enrichUser dwdCredentialsMap) users)
  end.

Definition enrichHostsWithDwdCredentials (orgId : option Z)
    (hosts : list THost) : outcome (list THost) :=
  match _getDwdCredentialsMapPerUser orgId
          (map (fun host => asUser (host_user host)) hosts) with
  | TypeErrorThrown => TypeErrorThrown
  | Returned dwdCredentialsMap =>
      Returned (map (enrichHost dwdCredentialsMap) hosts)
  end.

(** *** Enrichment over a store of records

    JavaScript passes records by reference.  To state that enrichment
    leaves its input records alone, the same two functions are also given
    over a store: the input is a list of references, every record that the
    callback builds is allocated at a fresh reference, and the references
    of the new records are returned. *)

Inductive object : Type :=
| UserObject (user : TUser)
| HostObject (user : loc) (rest : HostRest).

Abbreviation store := (list object) (only parsing).

Definition readUser (σ : store) (l : loc) : option TUser :=
  match σ !! l with
  | Some (UserObject user) => Some user
  | _ => None
  end.

(** A host record read with the user record it points to. *)
Definition readHost (σ : store) (l : loc) : option THost :=
  match σ !! l with
  | Some (HostObject u rest) =>
      match readUser σ u with
      | Some user => Some {| host_user := user; host_rest := rest |}
      | None => None
      end
  | _ => None
  end.

(** An object literal: a new record at the next free reference. *)
Definition allocate (σ : store) (o : object) : store * loc :=
  (σ ++ [o], length σ).

(** [users.map(callback)] over references; [None] only when a reference
    does not denote a user record, which the types of the source exclude. *)
Fixpoint mapEnrichUser (dwdCredentialsMap : gmap Z (list Credential))
    (σ : store) (users : list loc) : option (store * list loc) :=
  match users with
  | [] => Some (σ, [])
  | l :: users' =>
      match readUser σ l with
      | None => None
      | Some user =>
          let '(σ1, l') := allocate σ (UserObject (enrichUser dwdCredentialsMap user)) in
          match mapEnrichUser dwdCredentialsMap σ1 users' with
          | None => None
          | Some (σ2, ls) => Some (σ2, l' :: ls)
          end
      end
  end.

(** [hosts.map(callback)] over references: the inner object literal (the
    user) is allocated first, then the host that points to it. *)
Fixpoint mapEnrichHost (dwdCredentialsMap : gmap Z (list Credential))
    (σ : store) (hosts : list loc) : option (store * list loc) :=
  match hosts with
  | [] => Some (σ, [])
  | l :: hosts' =>
      match readHost σ l with
      | None => None
      | Some host =>
          let '(σ1, u') :=
            allocate σ (UserObject (enrichUser dwdCredentialsMap (host_user host))) in
          let '(σ2, l') := allocate σ1 (HostObject u' (host_rest host)) in
          match mapEnrichHost dwdCredentialsMap σ2 hosts' with
          | None => None
          | Some (σ3, ls) => Some (σ3, l' :: ls)
          end
      end
  end.

Definition enrichUsersWithDwdCredentials_store (orgId : option Z)
    (σ : store) (users : list loc) : option (outcome (store * list loc)) :=
  match mapM (readUser σ) users with
  | None => None
  | Some records =>
      match _getDwdCredentialsMapPerUser orgId (map asUser records) with
      | TypeErrorThrown => Some TypeErrorThrown
      | Returned dwdCredentialsMap =>
          match mapEnrichUser dwdCredentialsMap σ users with
          | None => None
          | Some r => Some (Returned r)
          end
      end
  end.

Definition enrichHostsWithDwdCredentials_store (orgId : option Z)
    (σ : store) (hosts : list loc) : option (outcome (store * list loc)) :=
  match mapM (readHost σ) hosts with
  | None => None
  | Some records =>
      match _getDwdCredentialsMapPerUser orgId
              (map (fun host => asUser (host_user host)) records) with
      | TypeErrorThrown => Some TypeErrorThrown
      | Returned dwdCredentialsMap =>
          match mapEnrichHost dwdCredentialsMap σ hosts with
          | None => None
          | Some r => Some (Returned r)
          end
      end
  end.

(** *** Properties of the credential builder *)

(** C2. The credential builder returns the empty list for a null
    configuration, for a disabled one, and for one whose platform slug is not
    "google"; for an enabled "google" configuration it returns exactly two
    credentials, the calendar credential followed by the conferencing
    credential, each with [delegatedToId] equal to the configuration's id. *)
Theorem buildDwdCredentials_by_configuration
    (dwd : option DomainWideDelegation) (user : User) :
  (dwd = None -> _buildDwdCredentials dwd user = [])
  /\ (forall d, dwd = Some d -> dwd_enabled d = false ->
        _buildDwdCredentials dwd user = [])
  /\ (forall d, dwd = Some d -> dwd_slug d <> "google" ->
        _buildDwdCredentials dwd user = [])
  /\ (forall d, dwd = Some d -> dwd_enabled d = true -> dwd_slug d = "google" ->
        exists calendar conferencing,
          _buildDwdCredentials dwd user = [calendar; conferencing]
          /\ _buildDwdCalendarCredential d user = Some calendar
          /\ _buildDwdConferencingCredential d user = Some conferencing
          /\ cred_type calendar = meta_type googleCalendarMetadata
          /\ cred_appId calendar = Some (meta_slug googleCalendarMetadata)
          /\ cred_type conferencing = meta_type googleMeetMetadata
          /\ cred_appId conferencing = Some (meta_slug googleMeetMetadata)
          /\ cred_delegatedToId calendar = Some (dwd_id d)
          /\ cred_delegatedToId conferencing = Some (dwd_id d)).
Proof.
  repeat split.
  - intros ->. reflexivity.
  - intros d -> Hoff. simpl. rewrite Hoff. reflexivity.
  - intros d -> Hslug. simpl.
    unfold _buildDwdCalendarCredential, _buildDwdConferencingCredential.
    apply String.eqb_neq in Hslug. rewrite Hslug. simpl.
    destruct (dwd_enabled d); reflexivity.
  - intros d -> Hon Hslug.
    unfold _buildDwdCredentials, _buildDwdCalendarCredential,
      _buildDwdConferencingCredential.
    apply String.eqb_eq in Hslug. rewrite Hon, Hslug. simpl.
    eexists _, _. repeat split.
Qed.

(** *** Properties of the credential merger *)

(** The reducer keeps [credential] after the credentials [kept] so far:
    its back-reference is falsy (null or the empty string), or no kept
    credential has the same back-reference and the same app. *)
Definition keeps (kept : list Credential) (credential : Credential) : bool :=
  negb (truthy_str (cred_delegatedToId credential))
  || negb (existsb (sameDwdAndApp credential) kept).

(** The pair on which delegated credentials are deduplicated. *)
Definition dwdKey (c : Credential) : option string * option string :=
  (cred_delegatedToId c, cred_appId c).

Lemma sameDwdAndApp_key (credential c : Credential) :
  sameDwdAndApp credential c = true <-> dwdKey c = dwdKey credential.
Proof.
  unfold sameDwdAndApp, dwdKey. rewrite andb_true_iff, !bool_decide_eq_true.
  split; [intros [-> ->]; reflexivity | intros [= -> ->]; done].
Qed.

Lemma find_None_existsb {A : Type} (p : A -> bool) (l : list A) :
  find p l = None <-> existsb p l = false.
Proof.
  induction l as [|x l IH]; simpl; [done|].
  destruct (p x); simpl; [split; discriminate | exact IH].
Qed.

Lemma uniqueStep_keeps (acc : list Credential) (credential : Credential) :
  uniqueStep acc credential
  = acc ++ (if keeps acc credential then [credential] else []).
Proof.
  unfold uniqueStep, keeps.
  destruct (truthy_str (cred_delegatedToId credential)); simpl; [|done].
  destruct (find (sameDwdAndApp credential) acc) eqn:Hfind.
  - assert (existsb (sameDwdAndApp credential) acc = true) as ->.
    { destruct (existsb _ acc) eqn:He; [done|].
      apply find_None_existsb in He. congruence. }
    simpl. by rewrite app_nil_r.
  - apply find_None_existsb in Hfind. by rewrite Hfind.
Qed.

Lemma uniqueFrom_app (acc l1 l2 : list Credential) :
  uniqueFrom acc (l1 ++ l2) = uniqueFrom (uniqueFrom acc l1) l2.
Proof. apply fold_left_app. Qed.

Lemma uniqueFrom_cons (acc : list Credential) (c : Credential) (l : list Credential) :
  uniqueFrom acc (c :: l) = uniqueFrom (uniqueStep acc c) l.
Proof. reflexivity. Qed.

(** What the fold has kept stays, in place: the result extends [acc]. *)
Lemma uniqueFrom_extends (l acc : list Credential) :
  exists later, uniqueFrom acc l = acc ++ later.
Proof.
  revert acc. induction l as [|c l IH]; intros acc.
  - exists []. simpl. by rewrite app_nil_r.
  - rewrite uniqueFrom_cons, uniqueStep_keeps.
    destruct (IH (acc ++ (if keeps acc c then [c] else []))) as [later ->].
    eexists. by rewrite <- app_assoc.
Qed.

(** Credentials with a falsy back-reference all go through as they are. *)
Lemma uniqueFrom_regular (l acc : list Credential) :
  Forall (fun c => truthy_str (cred_delegatedToId c) = false) l ->
  uniqueFrom acc l = acc ++ l.
Proof.
  revert acc. induction l as [|c l IH]; intros acc Hl.
  - simpl. by rewrite app_nil_r.
  - inversion Hl as [|? ? Hc Hl']; subst.
    rewrite uniqueFrom_cons, uniqueStep_keeps. unfold keeps. rewrite Hc. simpl.
    rewrite IH by done. by rewrite <- app_assoc.
Qed.

Lemma buildNonDwdCredentials_regular (l : list Credential) :
  Forall (fun c => truthy_str (cred_delegatedToId c) = false)
    (buildNonDwdCredentials l).
Proof.
  unfold buildNonDwdCredentials. apply Forall_forall.
  intros c Hc. apply list_elem_of_In in Hc. apply in_map_iff in Hc.
  destruct Hc as [x [<- _]]. reflexivity.
Qed.

(** Delegated credentials first, deduplicated, then the stored credentials
    that are not flagged, normalized, in their order. *)
Lemma buildAllCredentials_split (dwdCredentials existingCredentials : list Credential) :
  buildAllCredentials dwdCredentials existingCredentials
  = uniqueFrom [] dwdCredentials
    ++ buildNonDwdCredentials (nonDwdCredentials existingCredentials).
Proof.
  unfold buildAllCredentials. rewrite uniqueFrom_app.
  apply uniqueFrom_regular, buildNonDwdCredentials_regular.
Qed.

(** Every member of the result was in the accumulator or in the input. *)
Lemma uniqueFrom_In (l acc : list Credential) (x : Credential) :
  In x (uniqueFrom acc l) -> In x acc \/ In x l.
Proof.
  revert acc. induction l as [|c l IH]; intros acc Hx; [by left|].
  rewrite uniqueFrom_cons, uniqueStep_keeps in Hx.
  apply IH in Hx. destruct Hx as [Hx|Hx]; [|right; by right].
  apply in_app_or in Hx. destruct Hx as [Hx|Hx]; [by left|].
  destruct (keeps acc c); simpl in Hx; [|done].
  destruct Hx as [->|[]]. right. by left.
Qed.

Lemma uniqueFrom_acc_In (l acc : list Credential) (x : Credential) :
  In x acc -> In x (uniqueFrom acc l).
Proof.
  intros Hx. destruct (uniqueFrom_extends l acc) as [later ->].
  apply in_or_app. by left.
Qed.

(** Every input credential has a representative with its key in the result. *)
Lemma uniqueFrom_represented (l acc : list Credential) (x : Credential) :
  In x l -> existsb (sameDwdAndApp x) (uniqueFrom acc l) = true.
Proof.
  revert acc. induction l as [|c l IH]; intros acc Hx; [done|].
  rewrite uniqueFrom_cons. destruct Hx as [->|Hx]; [|by apply IH].
  rewrite uniqueStep_keeps. apply existsb_exists.
  unfold keeps. destruct (truthy_str (cred_delegatedToId x)); simpl.
  - destruct (existsb (sameDwdAndApp x) acc) eqn:He; simpl.
    + apply existsb_exists in He. destruct He as [y [Hy Hsame]].
      exists y. split; [|done]. apply uniqueFrom_acc_In.
      apply in_or_app. by left.
    + exists x. split; [|by apply sameDwdAndApp_key].
      apply uniqueFrom_acc_In, in_or_app. right. by left.
  - exists x. split; [|by apply sameDwdAndApp_key].
    apply uniqueFrom_acc_In, in_or_app. right. by left.
Qed.

(** First occurrence wins: a kept credential with the key of [c] exists
    exactly when an input credential with that key came before. *)
Lemma uniqueFrom_first_occurrence (before : list Credential) (c : Credential) :
  existsb (sameDwdAndApp c) (uniqueFrom [] before)
  = existsb (sameDwdAndApp c) before.
Proof.
  apply eq_true_iff_eq. rewrite !existsb_exists. split.
  - intros [y [Hy Hsame]]. apply uniqueFrom_In in Hy.
    destruct Hy as [[]|Hy]. by exists y.
  - intros [y [Hy Hsame]].
    pose proof (uniqueFrom_represented before [] y Hy) as Hrep.
    apply existsb_exists in Hrep. destruct Hrep as [z [Hz Hyz]].
    exists z. split; [done|].
    apply sameDwdAndApp_key. apply sameDwdAndApp_key in Hsame, Hyz. congruence.
Qed.

(** Delegated credentials that already have a representative in the
    accumulator are all skipped. *)
Lemma uniqueFrom_absorbed (l acc : list Credential) :
  Forall (fun c => truthy_str (cred_delegatedToId c) = true) l ->
  Forall (fun c => existsb (sameDwdAndApp c) acc = true) l ->
  uniqueFrom acc l = acc.
Proof.
  induction l as [|c l IH]; intros Ht Hin; [done|].
  inversion Ht as [|? ? Hc Ht']; inversion Hin as [|? ? Hc' Hin']; subst.
  rewrite uniqueFrom_cons, uniqueStep_keeps. unfold keeps.
  rewrite Hc, Hc'. simpl. rewrite app_nil_r. by apply IH.
Qed.

(** Delegated credentials with pairwise distinct keys, none of them in the
    accumulator, are all kept. *)
Lemma uniqueFrom_distinct (l acc : list Credential) :
  NoDup (map dwdKey (acc ++ l)) ->
  uniqueFrom acc l = acc ++ l.
Proof.
  revert acc. induction l as [|c l IH]; intros acc Hnd.
  - simpl. by rewrite app_nil_r.
  - rewrite uniqueFrom_cons, uniqueStep_keeps.
    assert (existsb (sameDwdAndApp c) acc = false) as Hfresh.
    { destruct (existsb (sameDwdAndApp c) acc) eqn:He; [|done].
      apply existsb_exists in He. destruct He as [y [Hy Hsame]].
      apply sameDwdAndApp_key in Hsame.
      rewrite map_app in Hnd. simpl in Hnd.
      apply NoDup_ListNoDup, List.NoDup_remove_2 in Hnd.
      exfalso. apply Hnd, in_or_app. left.
      rewrite <- Hsame. by apply in_map. }
    unfold keeps. rewrite Hfresh, orb_true_r.
    rewrite IH; [by rewrite <- app_assoc|].
    by rewrite <- app_assoc.
Qed.

(** C4 (amended). For delegated credentials whose delegation ids are
    non-empty and whose (delegation-id, app) pairs are pairwise distinct,
    merging the list passed twice gives the same output as merging it once:
    the list itself followed by the surviving stored credentials. *)
Theorem buildAllCredentials_twice
    (dwdCredentials existingCredentials : list Credential) :
  Forall (fun c => truthy_str (cred_delegatedToId c) = true) dwdCredentials ->
  NoDup (map dwdKey dwdCredentials) ->
  buildAllCredentials (dwdCredentials ++ dwdCredentials) existingCredentials
  = buildAllCredentials dwdCredentials existingCredentials
  /\ buildAllCredentials dwdCredentials existingCredentials
     = dwdCredentials
       ++ buildNonDwdCredentials (nonDwdCredentials existingCredentials).
Proof.
  intros Hdelegated Hdistinct.
  rewrite !buildAllCredentials_split, uniqueFrom_app.
  rewrite (uniqueFrom_absorbed dwdCredentials (uniqueFrom [] dwdCredentials)).
  - split; [done|]. by rewrite (uniqueFrom_distinct dwdCredentials []).
  - done.
  - apply Forall_forall. intros c Hc.
    apply uniqueFrom_represented. by apply list_elem_of_In.
Qed.

(** *** Properties of the credential lookup utilities *)

Lemma find_all_false {A : Type} (p : A -> bool) (l : list A) :
  (forall x, In x l -> p x = false) -> find p l = None.
Proof.
  intros Hp. apply find_None_existsb.
  destruct (existsb p l) eqn:He; [|done].
  apply existsb_exists in He. destruct He as [x [Hx Hpx]].
  rewrite Hp in Hpx by done. discriminate.
Qed.

(** The same lookup, when the callback gives the same answers on the list. *)
Lemma find_ext_in {A : Type} (p q : A -> bool) (l : list A) :
  (forall x, In x l -> p x = q x) -> find p l = find q l.
Proof.
  induction l as [|x l IH]; intros Hpq; [done|]. simpl.
  rewrite (Hpq x) by (by left). destruct (q x); [done|].
  apply IH. intros y Hy. apply Hpq. by right.
Qed.

(** C5 (amended). Both lookups return null when neither id is supplied
    (null, the empty string or zero).  What the list lookup returns is a
    credential of the list that either has a non-empty back-reference equal
    to the delegation id supplied, or has no (or an empty) back-reference
    and the numeric id supplied: a credential with a non-empty
    back-reference is never returned for a numeric id (over such
    credentials the numeric id plays no part, and with no delegation id
    supplied none of them is returned), and a credential with no
    back-reference is never returned for a delegation id (over such
    credentials the delegation id plays no part, and with no numeric id
    supplied none of them is returned).  In the first lookup a supplied
    delegation id finds a credential of the delegated list with that
    back-reference, whatever the numeric id, and without it the delegated
    list is not searched. *)
Theorem lookup_branches_on_reference :
  (forall credentials id,
      truthy_str (dwdId id) = false -> truthy_num (credentialId id) = false ->
      getDwdOrRegularCredential credentials id = None)
  /\ (forall dwdCredentials id,
        truthy_str (find_domainWideDelegationCredentialId id) = false ->
        truthy_num (find_credentialId id) = false ->
        getDwdOrFindRegularCredential id dwdCredentials = None)
  /\ (forall cred id,
        truthy_str (cred_delegatedToId cred) = true ->
        credentialMatches id cred
        = bool_decide (cred_delegatedToId cred = dwdId id))
  /\ (forall cred id,
        cred_delegatedToId cred = None ->
        credentialMatches id cred
        = truthy_num (credentialId id)
          && bool_decide (Some (cred_id cred) = credentialId id))
  /\ (forall dwdCredentials id found,
        truthy_str (find_domainWideDelegationCredentialId id) = true ->
        getDwdOrFindRegularCredential id dwdCredentials = Some found ->
        In found dwdCredentials
        /\ cred_delegatedToId found = find_domainWideDelegationCredentialId id)
  /\ (forall dwdCredentials id,
        truthy_str (find_domainWideDelegationCredentialId id) = false ->
        getDwdOrFindRegularCredential id dwdCredentials
        = getDwdOrFindRegularCredential id [])
  /\ (forall credentials id found,
        getDwdOrRegularCredential credentials id = Some found ->
        In found credentials
        /\ (truthy_str (cred_delegatedToId found) = true ->
            cred_delegatedToId found = dwdId id)
        /\ (truthy_str (cred_delegatedToId found) = false ->
            truthy_num (credentialId id) = true
            /\ Some (cred_id found) = credentialId id))
  /\ (forall credentials numericId found,
        getDwdOrRegularCredential credentials
          {| credentialId := numericId; dwdId := None |} = Some found ->
        truthy_str (cred_delegatedToId found) = false)
  /\ (forall credentials delegationId found,
        getDwdOrRegularCredential credentials
          {| credentialId := None; dwdId := delegationId |} = Some found ->
        truthy_str (cred_delegatedToId found) = true
        /\ cred_delegatedToId found = delegationId)
  /\ (forall credentials numericId numericId' delegationId,
        Forall (fun cred => truthy_str (cred_delegatedToId cred) = true)
          credentials ->
        getDwdOrRegularCredential credentials
          {| credentialId := numericId; dwdId := delegationId |}
        = getDwdOrRegularCredential credentials
            {| credentialId := numericId'; dwdId := delegationId |})
  /\ (forall credentials numericId delegationId delegationId',
        Forall (fun cred => cred_delegatedToId cred = None) credentials ->
        getDwdOrRegularCredential credentials
          {| credentialId := numericId; dwdId := delegationId |}
        = getDwdOrRegularCredential credentials
            {| credentialId := numericId; dwdId := delegationId' |})
  /\ (forall dwdCredentials numericId numericId' delegationId,
        truthy_str delegationId = true ->
        getDwdOrFindRegularCredential
          {| find_credentialId := numericId;
             find_domainWideDelegationCredentialId := delegationId |}
          dwdCredentials
        = getDwdOrFindRegularCredential
            {| find_credentialId := numericId';
               find_domainWideDelegationCredentialId := delegationId |}
            dwdCredentials).
Proof.
  assert (forall credentials id found,
            getDwdOrRegularCredential credentials id = Some found ->
            In found credentials
            /\ (truthy_str (cred_delegatedToId found) = true ->
                cred_delegatedToId found = dwdId id)
            /\ (truthy_str (cred_delegatedToId found) = false ->
                truthy_num (credentialId id) = true
                /\ Some (cred_id found) = credentialId id)) as Hreturned.
  { intros credentials id found Hfound.
    apply find_some in Hfound as [Hin Hmatch]. split; [done|].
    unfold credentialMatches in Hmatch.
    destruct (truthy_str (cred_delegatedToId found)); split; try done.
    - intros _. by apply bool_decide_eq_true in Hmatch.
    - intros _. destruct (truthy_num (credentialId id)); [|done].
      split; [done|]. by apply bool_decide_eq_true in Hmatch. }
  split; [|split; [|split; [|split; [|split; [|split; [|split; [|split;
    [|split; [|split; [|split]]]]]]]]]].
  - intros credentials id Hd Hn. apply find_all_false. intros cred _.
    unfold credentialMatches. rewrite Hn.
    destruct (truthy_str (cred_delegatedToId cred)) eqn:Hc; [|done].
    apply bool_decide_eq_false. intros Heq. rewrite Heq in Hc. congruence.
  - intros dwdCredentials id Hd Hn. unfold getDwdOrFindRegularCredential.
    rewrite Hd. destruct (find_credentialId id) as [n|]; [|done].
    simpl in Hn. by rewrite Hn.
  - intros cred id Hc. unfold credentialMatches. by rewrite Hc.
  - intros cred id Hc. unfold credentialMatches. rewrite Hc. simpl.
    by destruct (truthy_num (credentialId id)).
  - intros dwdCredentials id found Hd Hfound.
    unfold getDwdOrFindRegularCredential in Hfound. rewrite Hd in Hfound.
    apply find_some in Hfound as [Hin Heq].
    by apply bool_decide_eq_true in Heq.
  - intros dwdCredentials id Hd. unfold getDwdOrFindRegularCredential.
    by rewrite Hd.
  - exact Hreturned.
  - intros credentials numericId found Hfound.
    apply Hreturned in Hfound as (_ & Hdelegated & _). simpl in Hdelegated.
    destruct (truthy_str (cred_delegatedToId found)) eqn:Hc; [|done].
    rewrite (Hdelegated eq_refl) in Hc. discriminate.
  - intros credentials delegationId found Hfound.
    apply Hreturned in Hfound as (_ & Hdelegated & Hregular).
    simpl in Hdelegated, Hregular.
    destruct (truthy_str (cred_delegatedToId found)) eqn:Hc.
    + split; [done|]. by apply Hdelegated.
    + by destruct (Hregular eq_refl) as [? _].
  - intros credentials numericId numericId' delegationId Hall.
    apply find_ext_in. intros cred Hcred. rewrite Forall_forall in Hall.
    unfold credentialMatches. by rewrite (Hall cred) by by apply list_elem_of_In.
  - intros credentials numericId delegationId delegationId' Hall.
    apply find_ext_in. intros cred Hcred. rewrite Forall_forall in Hall.
    unfold credentialMatches. by rewrite (Hall cred) by by apply list_elem_of_In.
  - intros dwdCredentials numericId numericId' delegationId Hd.
    unfold getDwdOrFindRegularCredential. simpl. by rewrite Hd.
Qed.

(** *** Properties of the delegation resolver *)

(** The resolver returns when the organization id is falsy or the batch is
    not empty. *)
Lemma getDwdCredentialsMapPerUser_returns
    (organizationId : option Z) (users : list User) :
  truthy_num organizationId = false \/ users <> [] ->
  exists m, _getDwdCredentialsMapPerUser organizationId users = Returned m.
Proof.
  intros Hpre. unfold _getDwdCredentialsMapPerUser.
  destruct (truthy_num organizationId) eqn:Horg; simpl; [|by eexists].
  destruct organizationId as [org|]; [|by eexists].
  destruct users as [|first others]; [by destruct Hpre|].
  destruct (findUniqueByOrganizationIdAndDomain _ _) as [dwd|]; [|by eexists].
  destruct (dwd_enabled dwd); simpl; by eexists.
Qed.

(** C9 (amended). The resolver returns a mapping whenever the organization
    id is null or zero or the batch is non-empty.  With a null (or zero)
    organization id it returns the empty mapping whatever the users; with a
    non-null, non-zero organization id it reads the first user of the batch
    for the domain, so an empty batch ends in the [TypeError] of reading a
    property of [undefined], which no code of the function raises or
    handles. *)
Theorem getDwdCredentialsMapPerUser_total_on_precondition :
  (forall users, _getDwdCredentialsMapPerUser None users = Returned ∅)
  /\ (forall users, _getDwdCredentialsMapPerUser (Some 0) users = Returned ∅)
  /\ (forall organizationId users,
        organizationId = None \/ users <> [] ->
        exists m, _getDwdCredentialsMapPerUser organizationId users = Returned m)
  /\ (forall organizationId,
        organizationId <> 0 ->
        _getDwdCredentialsMapPerUser (Some organizationId) [] = TypeErrorThrown)
  /\ (forall organizationId first others,
        organizationId <> 0 ->
        _getDwdCredentialsMapPerUser (Some organizationId) (first :: others)
        = match findUniqueByOrganizationIdAndDomain organizationId
                  (emailDomain (user_email first)) with
          | None => Returned ∅
          | Some dwd =>
              if dwd_enabled dwd
              then Returned (credentialsByUserId dwd (first :: others))
              else Returned ∅
          end).
Proof.
  repeat split.
  - intros organizationId users Hpre.
    apply getDwdCredentialsMapPerUser_returns.
    destruct Hpre as [->|Hne]; [by left|by right].
  - intros organizationId Hnz. unfold _getDwdCredentialsMapPerUser. simpl.
    apply Z.eqb_neq in Hnz. by rewrite Hnz.
  - intros organizationId first others Hnz.
    unfold _getDwdCredentialsMapPerUser. simpl.
    apply Z.eqb_neq in Hnz. rewrite Hnz. simpl.
    destruct (findUniqueByOrganizationIdAndDomain _ _) as [dwd|]; [|done].
    by destruct (dwd_enabled dwd).
Qed.

(** *** Properties of enrichment *)

(** The output record of the callback: every field but [credentials] is the
    input's, and [credentials] is the merged set. *)
Definition enriched_from (dwdCredentialsMap : gmap Z (list Credential))
    (user out : TUser) : Prop :=
  tuser_id out = tuser_id user
  /\ tuser_email out = tuser_email user
  /\ tuser_rest out = tuser_rest user
  /\ tuser_credentials out
     = buildAllCredentials (default [] (dwdCredentialsMap !! tuser_id user))
         (tuser_credentials user).

(** The store [σ'] extends [σ]: every record of [σ] is still there, as it was. *)
Definition untouched (σ σ' : store) : Prop :=
  forall l o, σ !! l = Some o -> σ' !! l = Some o.

(** The reference [l] was allocated after [σ]. *)
Definition fresh_in (σ : store) (l : loc) : Prop := (length σ <= l)%nat.

(** In [σ'], [l] is a host record allocated after [σ] that points to a user
    record allocated after [σ], and reads as [host]. *)
Definition fresh_host (σ σ' : store) (l : loc) (host : THost) : Prop :=
  fresh_in σ l
  /\ readHost σ' l = Some host
  /\ exists u, σ' !! l = Some (HostObject u (host_rest host)) /\ fresh_in σ u.

Lemma enrichUser_enriched_from (m : gmap Z (list Credential)) (user : TUser) :
  enriched_from m user (enrichUser m user).
Proof. by repeat split. Qed.

Lemma untouched_refl (σ : store) : untouched σ σ.
Proof. by intros l o. Qed.

Lemma untouched_app (σ : store) (ext : list object) : untouched σ (σ ++ ext).
Proof. intros l o Hl. by apply lookup_app_l_Some. Qed.

Lemma untouched_trans (σ1 σ2 σ3 : store) :
  untouched σ1 σ2 -> untouched σ2 σ3 -> untouched σ1 σ3.
Proof. intros H12 H23 l o Hl. by apply H23, H12. Qed.

Lemma readUser_untouched (σ σ' : store) (l : loc) (user : TUser) :
  untouched σ σ' -> readUser σ l = Some user -> readUser σ' l = Some user.
Proof.
  unfold readUser. intros Hext Hr.
  destruct (σ !! l) as [[u|u rest]|] eqn:Hl; try discriminate.
  by rewrite (Hext _ _ Hl).
Qed.

Lemma readHost_untouched (σ σ' : store) (l : loc) (host : THost) :
  untouched σ σ' -> readHost σ l = Some host -> readHost σ' l = Some host.
Proof.
  unfold readHost. intros Hext Hr.
  destruct (σ !! l) as [[u|u rest]|] eqn:Hl; try discriminate.
  rewrite (Hext _ _ Hl).
  destruct (readUser σ u) as [user|] eqn:Hu; [|discriminate].
  by rewrite (readUser_untouched _ _ _ _ Hext Hu).
Qed.

Lemma readUser_allocated (σ : store) (user : TUser) (ext : list object) :
  readUser (σ ++ UserObject user :: ext) (length σ) = Some user.
Proof.
  unfold readUser. by rewrite list_lookup_middle.
Qed.

Lemma mapEnrichUser_store (m : gmap Z (list Credential)) (users : list loc) :
  forall (σ : store) (records : list TUser),
    Forall2 (fun l user => readUser σ l = Some user) users records ->
    exists σ' ls,
      mapEnrichUser m σ users = Some (σ', ls)
      /\ untouched σ σ'
      /\ Forall2 (fun l out => readUser σ' l = Some out) ls
           (map (enrichUser m) records)
      /\ Forall (fresh_in σ) ls.
Proof.
  induction users as [|l users IH]; intros σ records Hread.
  - inversion Hread; subst. exists σ, []. simpl.
    repeat split; [apply untouched_refl|constructor|constructor].
  - inversion Hread as [|? user ? records' Hl Hrest]; subst. simpl.
    rewrite Hl. set (o := UserObject (enrichUser m user)).
    destruct (IH (σ ++ [o]) records') as (σ' & ls & Hrun & Hext & Hout & Hfresh).
    { eapply Forall2_impl; [exact Hrest|]. intros l' u' Hr.
      eapply readUser_untouched; [apply untouched_app|exact Hr]. }
    rewrite Hrun. exists σ', (length σ :: ls).
    split; [done|]. split; [|split].
    + eapply untouched_trans; [apply untouched_app|exact Hext].
    + simpl. constructor; [|done].
      eapply readUser_untouched; [exact Hext|].
      unfold o. apply readUser_allocated.
    + constructor; [unfold fresh_in; lia|].
      eapply Forall_impl; [exact Hfresh|]. unfold fresh_in. intros l'.
      rewrite length_app. simpl. lia.
Qed.

Lemma mapEnrichHost_store (m : gmap Z (list Credential)) (hosts : list loc) :
  forall (σ : store) (records : list THost),
    Forall2 (fun l host => readHost σ l = Some host) hosts records ->
    exists σ' ls,
      mapEnrichHost m σ hosts = Some (σ', ls)
      /\ untouched σ σ'
      /\ Forall2 (fresh_host σ σ') ls (map (enrichHost m) records).
Proof.
  induction hosts as [|l hosts IH]; intros σ records Hread.
  - inversion Hread; subst. exists σ, []. simpl.
    repeat split; [apply untouched_refl|constructor].
  - inversion Hread as [|? host ? records' Hl Hrest]; subst. simpl.
    rewrite Hl.
    set (u := UserObject (enrichUser m (host_user host))).
    set (h := HostObject (length σ) (host_rest host)).
    assert (untouched σ ((σ ++ [u]) ++ [h])) as Hσ.
    { eapply untouched_trans; apply untouched_app. }
    destruct (IH ((σ ++ [u]) ++ [h]) records')
      as (σ' & ls & Hrun & Hext & Hout).
    { eapply Forall2_impl; [exact Hrest|]. intros l' h' Hr.
      eapply readHost_untouched; [exact Hσ|exact Hr]. }
    rewrite Hrun. exists σ', (length (σ ++ [u]) :: ls).
    split; [done|]. split; [by eapply untouched_trans|].
    assert (((σ ++ [u]) ++ [h]) !! length (σ ++ [u])
            = Some (HostObject (length σ) (host_rest host))) as Hh.
    { by rewrite list_lookup_middle. }
    assert (readUser ((σ ++ [u]) ++ [h]) (length σ)
            = Some (enrichUser m (host_user host))) as Hu.
    { rewrite <- app_assoc. apply readUser_allocated. }
    simpl. constructor.
    + unfold fresh_host, fresh_in. split; [rewrite length_app; lia|].
      split.
      * eapply readHost_untouched; [exact Hext|].
        unfold readHost. by rewrite Hh, Hu.
      * exists (length σ). split; [|lia]. apply Hext. exact Hh.
    + eapply Forall2_impl; [exact Hout|].
      intros l' h' (Hf & Hr & u' & Hl' & Hfu).
      unfold fresh_host, fresh_in in *. rewrite !length_app in Hf, Hfu.
      simpl in Hf, Hfu. split; [lia|]. split; [done|].
      exists u'. split; [done|lia].
Qed.

(** C8. Enrichment of users and of hosts returns whenever the resolver
    does (the organization id is null or zero, or the batch is not empty),
    and what it returns is, record for record, the input with [credentials]
    replaced by the merged set and every other field as it was (for a host:
    its own fields, and the fields of its user other than [credentials]).
    Over the store, every record that existed before the call is unchanged
    after it, and the records returned are new ones that read as the
    enriched records. *)
Theorem enrichment_replaces_credentials_only (orgId : option Z) :
  (forall users,
      truthy_num orgId = false \/ users <> [] ->
      exists enriched, enrichUsersWithDwdCredentials orgId users = Returned enriched)
  /\ (forall hosts,
        truthy_num orgId = false \/ hosts <> [] ->
        exists enriched, enrichHostsWithDwdCredentials orgId hosts = Returned enriched)
  /\ (forall users enriched,
      enrichUsersWithDwdCredentials orgId users = Returned enriched ->
      exists m,
        _getDwdCredentialsMapPerUser orgId (map asUser users) = Returned m
        /\ Forall2 (enriched_from m) users enriched)
  /\ (forall hosts enriched,
        enrichHostsWithDwdCredentials orgId hosts = Returned enriched ->
        exists m,
          _getDwdCredentialsMapPerUser orgId
            (map (fun host => asUser (host_user host)) hosts) = Returned m
          /\ Forall2
               (fun host out =>
                  host_rest out = host_rest host
                  /\ enriched_from m (host_user host) (host_user out))
               hosts enriched)
  /\ (forall (σ : store) users records,
        Forall2 (fun l user => readUser σ l = Some user) users records ->
        match enrichUsersWithDwdCredentials orgId records with
        | TypeErrorThrown =>
            enrichUsersWithDwdCredentials_store orgId σ users
            = Some TypeErrorThrown
        | Returned enriched =>
            exists σ' ls,
              enrichUsersWithDwdCredentials_store orgId σ users
              = Some (Returned (σ', ls))
              /\ untouched σ σ'
              /\ Forall2 (fun l out => readUser σ' l = Some out) ls enriched
              /\ Forall (fresh_in σ) ls
        end)
  /\ (forall (σ : store) hosts records,
        Forall2 (fun l host => readHost σ l = Some host) hosts records ->
        match enrichHostsWithDwdCredentials orgId records with
        | TypeErrorThrown =>
            enrichHostsWithDwdCredentials_store orgId σ hosts
            = Some TypeErrorThrown
        | Returned enriched =>
            exists σ' ls,
              enrichHostsWithDwdCredentials_store orgId σ hosts
              = Some (Returned (σ', ls))
              /\ untouched σ σ'
              /\ Forall2 (fresh_host σ σ') ls enriched
        end).
Proof.
  split; [|split; [|split; [|split; [|split]]]].
  - intros users Hpre. unfold enrichUsersWithDwdCredentials.
    destruct (getDwdCredentialsMapPerUser_returns orgId (map asUser users))
      as [m ->]; [|by eexists].
    destruct Hpre as [Horg|Hne]; [by left|right].
    by destruct users.
  - intros hosts Hpre. unfold enrichHostsWithDwdCredentials.
    destruct (getDwdCredentialsMapPerUser_returns orgId
                (map (fun host => asUser (host_user host)) hosts))
      as [m ->]; [|by eexists].
    destruct Hpre as [Horg|Hne]; [by left|right].
    by destruct hosts.
  - intros users enriched. unfold enrichUsersWithDwdCredentials.
    destruct (_getDwdCredentialsMapPerUser _ _) as [m|]; [|discriminate].
    intros [= <-]. exists m. split; [done|].
    induction users as [|user users IH]; simpl; constructor;
      [apply enrichUser_enriched_from|exact IH].
  - intros hosts enriched. unfold enrichHostsWithDwdCredentials.
    destruct (_getDwdCredentialsMapPerUser _ _) as [m|]; [|discriminate].
    intros [= <-]. exists m. split; [done|].
    induction hosts as [|host hosts IH]; simpl; constructor; [|exact IH].
    split; [done|apply enrichUser_enriched_from].
  - intros σ users records Hread.
    unfold enrichUsersWithDwdCredentials, enrichUsersWithDwdCredentials_store.
    rewrite (proj2 (mapM_Some _ _ _) Hread).
    destruct (_getDwdCredentialsMapPerUser _ _) as [m|]; [|done].
    destruct (mapEnrichUser_store m users σ records Hread)
      as (σ' & ls & Hrun & Hext & Hout & Hfresh).
    exists σ', ls. by rewrite Hrun.
  - intros σ hosts records Hread.
    unfold enrichHostsWithDwdCredentials, enrichHostsWithDwdCredentials_store.
    rewrite (proj2 (mapM_Some _ _ _) Hread).
    destruct (_getDwdCredentialsMapPerUser _ _) as [m|]; [|done].
    destruct (mapEnrichHost_store m hosts σ records Hread)
      as (σ' & ls & Hrun & Hext & Hout).
    exists σ', ls. by rewrite Hrun.
Qed.

(** *** Single-user paths and selections *)

(** [DomainWideDelegationRepository.
    findUniqueByOrgMemberEmailIncludeSensitiveServiceAccountKey],
    [DomainWideDelegationRepository.findByIdIncludeSensitiveServiceAccountKey]
    and [UserRepository.findById]: the row, or null. *)
Variable findUniqueByOrgMemberEmail : string -> option DomainWideDelegation.
Variable findByIdIncludeSensitiveServiceAccountKey :
  string -> option DomainWideDelegation.
Variable UserRepository_findById : Z -> option User.

(** [googleMeetMetadata.appData?.location?.type ?? null]. *)
Variable googleMeetLocationType : option string.

Definition getAllDwdCredentialsForUser (user : User) : list Credential :=
  let dwd := findUniqueByOrgMemberEmail (user_email user) in
  _buildDwdCredentials dwd user.

Definition getAllDwdCalendarCredentialsForUser (user : User) : list Credential :=
  List.filter _isCalendarCredential (getAllDwdCredentialsForUser user).

Definition getAllDwdCredentialsForUserByAppType (user : User) (appType : string)
    : list Credential :=
  List.filter (fun credential => String.eqb (cred_type credential) appType)
    (getAllDwdCredentialsForUser user).

Definition getAllDwdCredentialsForUserByAppSlug (user : User) (appSlug : string)
    : list Credential :=
  List.filter (fun credential => bool_decide (cred_appId credential = Some appSlug))
    (getAllDwdCredentialsForUser user).

Definition enrichUserWithDwdCredentialsWithoutOrgId (user : TUser) : TUser :=
  let dwdCredentials := getAllDwdCredentialsForUser (asUser user) in
  {| tuser_id := tuser_id user;
     tuser_email := tuser_email user;
     tuser_rest := tuser_rest user;
     tuser_credentials :=
       buildAllCredentials dwdCredentials (tuser_credentials user) |}.

Definition enrichUserWithDwdConferencingCredentialsWithoutOrgId (user : TUser)
    : TUser :=
  let enriched := enrichUserWithDwdCredentialsWithoutOrgId user in
  {| tuser_id := tuser_id enriched;
     tuser_email := tuser_email enriched;
     tuser_rest := tuser_rest enriched;
     tuser_credentials :=
       List.filter _isConferencingCredential (tuser_credentials enriched) |}.

Definition getFirstDwdConferencingCredential (credentials : list Credential)
    : option Credential :=
  find _isConferencingCredential credentials.

Definition getFirstDwdConferencingCredentialAppLocation
    (credentials : list Credential) : option string :=
  match getFirstDwdConferencingCredential credentials with
  | Some dwdConferencingCredential =>
      if bool_decide (cred_appId dwdConferencingCredential
                      = Some (meta_slug googleMeetMetadata))
      then googleMeetLocationType
      else None
  | None => None
  end.

Definition findDwdCredentials (userId : Z) (dwdId : string) : list Credential :=
  let dwd := findByIdIncludeSensitiveServiceAccountKey dwdId in
  match UserRepository_findById userId with
  | None => []
  | Some user => _buildDwdCredentials dwd user
  end.

(** [calendarCredentials[0] ?? null]. *)
Definition findDwdCalendarCredential (userId : Z) (dwdId : string)
    : option Credential :=
  head (List.filter _isCalendarCredential (findDwdCredentials userId dwdId)).

(** *** Further properties of the merger *)

(** The credentials on which the reducer deduplicates. *)
Definition delegatedOnly (l : list Credential) : list Credential :=
  List.filter (fun c => truthy_str (cred_delegatedToId c)) l.

Lemma sameDwdAndApp_truthy (credential c : Credential) :
  sameDwdAndApp credential c = true ->
  truthy_str (cred_delegatedToId c) = truthy_str (cred_delegatedToId credential).
Proof.
  intros H. apply sameDwdAndApp_key in H. unfold dwdKey in H.
  by injection H as -> _.
Qed.

(** A delegated credential has a kept relative exactly when its key is among
    the keys of the delegated credentials kept. *)
Lemma existsb_same_key (acc : list Credential) (c : Credential) :
  truthy_str (cred_delegatedToId c) = true ->
  existsb (sameDwdAndApp c) acc = true
  <-> dwdKey c ∈ map dwdKey (delegatedOnly acc).
Proof.
  intros Hc. rewrite existsb_exists, list_elem_of_In, in_map_iff. split.
  - intros [y [Hy Hsame]]. exists y. split; [by apply sameDwdAndApp_key|].
    apply filter_In. split; [done|].
    by rewrite (sameDwdAndApp_truthy _ _ Hsame).
  - intros [y [Hkey Hy]]. apply filter_In in Hy as [Hy _].
    exists y. split; [done|]. by apply sameDwdAndApp_key.
Qed.

Lemma delegatedOnly_app (l1 l2 : list Credential) :
  delegatedOnly (l1 ++ l2) = delegatedOnly l1 ++ delegatedOnly l2.
Proof. apply List.filter_app. Qed.

(** The fold keeps the keys of the delegated credentials pairwise distinct. *)
Lemma uniqueFrom_NoDup (l acc : list Credential) :
  NoDup (map dwdKey (delegatedOnly acc)) ->
  NoDup (map dwdKey (delegatedOnly (uniqueFrom acc l))).
Proof.
  revert acc. induction l as [|c l IH]; intros acc Hacc; [done|].
  rewrite uniqueFrom_cons. apply IH. rewrite uniqueStep_keeps.
  unfold keeps.
  destruct (truthy_str (cred_delegatedToId c)) eqn:Hc; simpl.
  - destruct (existsb (sameDwdAndApp c) acc) eqn:He; simpl.
    + by rewrite app_nil_r.
    + rewrite delegatedOnly_app, map_app. unfold delegatedOnly at 2. simpl.
      rewrite Hc. simpl. apply NoDup_app. split; [done|]. split.
      * intros k Hk Hin. apply list_elem_of_singleton in Hin. subst k.
        apply (existsb_same_key acc c Hc) in Hk. congruence.
      * apply NoDup_singleton.
  - rewrite delegatedOnly_app. unfold delegatedOnly at 2. simpl.
    rewrite Hc. simpl. by rewrite app_nil_r.
Qed.

(** A list whose delegated credentials have pairwise distinct keys goes
    through the fold unchanged. *)
Lemma uniqueFrom_fixed (l acc : list Credential) :
  NoDup (map dwdKey (delegatedOnly (acc ++ l))) ->
  uniqueFrom acc l = acc ++ l.
Proof.
  revert acc. induction l as [|c l IH]; intros acc Hnd.
  - simpl. by rewrite app_nil_r.
  - rewrite uniqueFrom_cons, uniqueStep_keeps.
    assert (keeps acc c = true) as ->.
    { unfold keeps.
      destruct (truthy_str (cred_delegatedToId c)) eqn:Hc; [|done]. simpl.
      destruct (existsb (sameDwdAndApp c) acc) eqn:He; [|done].
      apply (existsb_same_key acc c Hc) in He.
      rewrite delegatedOnly_app, map_app in Hnd.
      apply NoDup_app in Hnd as (_ & Hdisjoint & _).
      exfalso. apply (Hdisjoint _ He).
      unfold delegatedOnly. simpl. rewrite Hc. simpl. by left. }
    rewrite IH; rewrite <- app_assoc; done.
Qed.

Lemma delegatedOnly_buildNonDwdCredentials (l : list Credential) :
  delegatedOnly (buildNonDwdCredentials l) = [].
Proof.
  unfold delegatedOnly, buildNonDwdCredentials.
  induction l as [|c l IH]; [done|]. simpl. exact IH.
Qed.

Lemma buildAllCredentials_NoDup (dwdCredentials existingCredentials : list Credential) :
  NoDup (map dwdKey
           (delegatedOnly (buildAllCredentials dwdCredentials existingCredentials))).
Proof.
  rewrite buildAllCredentials_split, delegatedOnly_app,
    delegatedOnly_buildNonDwdCredentials, app_nil_r.
  apply uniqueFrom_NoDup. simpl. apply NoDup_nil_2.
Qed.

Lemma buildAllCredentials_same_key_same_place
    (dwdCredentials existingCredentials : list Credential) (i j : nat)
    (a b : Credential) :
  buildAllCredentials dwdCredentials existingCredentials !! i = Some a ->
  buildAllCredentials dwdCredentials existingCredentials !! j = Some b ->
  truthy_str (cred_delegatedToId a) = true ->
  cred_delegatedToId a = cred_delegatedToId b ->
  cred_appId a = cred_appId b ->
  i = j.
Proof.
  intros Ha Hb Hta Hid Happ.
  pose proof (buildAllCredentials_NoDup dwdCredentials existingCredentials) as Hnd.
  set (merged := buildAllCredentials dwdCredentials existingCredentials) in *.
  clearbody merged. revert i j Ha Hb.
  induction merged as [|c merged IH]; intros i j Ha Hb; [done|].
  assert (forall x, x ∈ merged -> dwdKey x = dwdKey a ->
                    dwdKey a ∈ map dwdKey (delegatedOnly merged)) as Hmem.
  { intros x Hx Hkey. rewrite <- Hkey. apply list_elem_of_In, in_map.
    apply filter_In. split; [by apply list_elem_of_In|].
    unfold dwdKey in Hkey. injection Hkey as -> _. done. }
  assert (dwdKey b = dwdKey a) as Hba by (unfold dwdKey; congruence).
  destruct i as [|i], j as [|j]; simpl in Ha, Hb.
  - done.
  - injection Ha as ->. exfalso.
    unfold delegatedOnly in Hnd. simpl in Hnd. rewrite Hta in Hnd.
    simpl in Hnd. apply NoDup_cons in Hnd as [Hnotin _]. apply Hnotin.
    apply (Hmem b); [by eapply list_elem_of_lookup_2|done].
  - injection Hb as ->. exfalso.
    assert (truthy_str (cred_delegatedToId b) = true) as Htb by congruence.
    unfold delegatedOnly in Hnd. simpl in Hnd. rewrite Htb in Hnd.
    simpl in Hnd. apply NoDup_cons in Hnd as [Hnotin _]. apply Hnotin.
    rewrite Hba. apply (Hmem a); [by eapply list_elem_of_lookup_2|done].
  - f_equal. apply IH; [|done|done].
    unfold delegatedOnly in Hnd. simpl in Hnd.
    destruct (truthy_str (cred_delegatedToId c)); [|done].
    simpl in Hnd. by apply NoDup_cons in Hnd as [_ ?].
Qed.

(** What the fold adds to the accumulator is taken from the input, in the
    order of the input. *)
Lemma uniqueFrom_extends_sublist (l acc : list Credential) :
  exists later, uniqueFrom acc l = acc ++ later /\ sublist later l.
Proof.
  revert acc. induction l as [|c l IH]; intros acc.
  - exists []. simpl. by rewrite app_nil_r.
  - rewrite uniqueFrom_cons, uniqueStep_keeps.
    destruct (IH (acc ++ (if keeps acc c then [c] else [])))
      as (later & -> & Hsub).
    rewrite <- app_assoc. eexists. split; [reflexivity|].
    destruct (keeps acc c); simpl;
      [by apply sublist_skip|by apply sublist_cons].
Qed.

(** C3 (amended). The merger's output is the deduplicated delegated list
    followed by the stored credentials that are not flagged, normalized, in
    their order.  At every position of the delegated list the credential
    there is kept when its back-reference is null or the empty string, and
    otherwise exactly when no earlier kept credential (which is the same as:
    no earlier input credential) has the same back-reference and the same
    app identifier; a credential that is not kept is dropped: the output
    around it is made of what was kept before it and of credentials taken,
    in order, from those after it.  No two credentials of the output with a
    non-empty back-reference agree on back-reference and app identifier.  A
    stored credential whose id is not flagged is in the output, and nothing
    else is added. *)
Theorem buildAllCredentials_fold_order
    (dwdCredentials existingCredentials : list Credential) :
  buildAllCredentials dwdCredentials existingCredentials
  = uniqueFrom [] dwdCredentials
    ++ buildNonDwdCredentials (nonDwdCredentials existingCredentials)
  /\ (forall before c after,
        dwdCredentials = before ++ c :: after ->
        exists later,
          uniqueFrom [] dwdCredentials
          = uniqueFrom [] before
            ++ (if keeps (uniqueFrom [] before) c then [c] else [])
            ++ later
          /\ sublist (uniqueFrom [] before) before
          /\ sublist later after)
  /\ (forall before c,
        existsb (sameDwdAndApp c) (uniqueFrom [] before)
        = existsb (sameDwdAndApp c) before)
  /\ (forall i j a b,
        buildAllCredentials dwdCredentials existingCredentials !! i = Some a ->
        buildAllCredentials dwdCredentials existingCredentials !! j = Some b ->
        truthy_str (cred_delegatedToId a) = true ->
        cred_delegatedToId a = cred_delegatedToId b ->
        cred_appId a = cred_appId b ->
        i = j)
  /\ (forall s,
        In s existingCredentials -> isDwdCredential (cred_id s) = false ->
        In (buildNonDwdCredential s)
          (buildAllCredentials dwdCredentials existingCredentials))
  /\ (forall c,
        In c (buildAllCredentials dwdCredentials existingCredentials) ->
        In c dwdCredentials
        \/ exists s, In s existingCredentials
                     /\ isDwdCredential (cred_id s) = false
                     /\ c = buildNonDwdCredential s).
Proof.
  split; [apply buildAllCredentials_split|].
  split.
  { intros before c after ->.
    rewrite uniqueFrom_app, uniqueFrom_cons, uniqueStep_keeps.
    destruct (uniqueFrom_extends_sublist after
                (uniqueFrom [] before
                 ++ (if keeps (uniqueFrom [] before) c then [c] else [])))
      as (later & -> & Hlater).
    exists later. split; [by rewrite <- app_assoc|]. split; [|done].
    destruct (uniqueFrom_extends_sublist before []) as (kept & -> & Hkept).
    done. }
  split; [apply uniqueFrom_first_occurrence|].
  split; [apply buildAllCredentials_same_key_same_place|].
  split.
  - intros s Hs Hflag. rewrite buildAllCredentials_split.
    apply in_or_app. right. unfold buildNonDwdCredentials, nonDwdCredentials.
    apply in_map, filter_In. split; [done|]. by rewrite Hflag.
  - intros c Hc. rewrite buildAllCredentials_split in Hc.
    apply in_app_or in Hc. destruct Hc as [Hc|Hc].
    + apply uniqueFrom_In in Hc. destruct Hc as [[]|Hc]. by left.
    + right. unfold buildNonDwdCredentials, nonDwdCredentials in Hc.
      apply in_map_iff in Hc. destruct Hc as [s [<- Hs]].
      apply filter_In in Hs. destruct Hs as [Hs Hflag].
      exists s. repeat split; [done|].
      by destruct (isDwdCredential (cred_id s)).
Qed.

(** X1. In the merged list no two credentials with a non-empty delegation
    back-reference have the same back-reference and the same app
    identifier. *)
Theorem buildAllCredentials_no_duplicate_delegated
    (dwdCredentials existingCredentials : list Credential) (i j : nat)
    (a b : Credential) :
  buildAllCredentials dwdCredentials existingCredentials !! i = Some a ->
  buildAllCredentials dwdCredentials existingCredentials !! j = Some b ->
  truthy_str (cred_delegatedToId a) = true ->
  i <> j ->
  ~ (cred_delegatedToId a = cred_delegatedToId b
     /\ cred_appId a = cred_appId b).
Proof.
  intros Ha Hb Hta Hij [Hid Happ]. apply Hij.
  by apply (buildAllCredentials_same_key_same_place dwdCredentials
              existingCredentials i j a b).
Qed.

(** X2. Merging is idempotent: a merged list passed again as the delegated
    list, with nothing stored, comes back as it is. *)
Theorem buildAllCredentials_idempotent
    (dwdCredentials existingCredentials : list Credential) :
  buildAllCredentials
    (buildAllCredentials dwdCredentials existingCredentials) []
  = buildAllCredentials dwdCredentials existingCredentials.
Proof.
  rewrite (buildAllCredentials_split (buildAllCredentials _ _) []).
  unfold nonDwdCredentials, buildNonDwdCredentials. simpl. rewrite app_nil_r.
  apply (uniqueFrom_fixed _ []). simpl. apply buildAllCredentials_NoDup.
Qed.

Lemma buildNonDwdCredentials_idempotent (l : list Credential) :
  buildNonDwdCredentials (buildNonDwdCredentials l) = buildNonDwdCredentials l.
Proof.
  unfold buildNonDwdCredentials. rewrite map_map. reflexivity.
Qed.

Lemma nonDwdCredentials_app (l1 l2 : list Credential) :
  nonDwdCredentials (l1 ++ l2) = nonDwdCredentials l1 ++ nonDwdCredentials l2.
Proof. apply List.filter_app. Qed.

Lemma nonDwdCredentials_all_flagged (l : list Credential) :
  (forall c, In c l -> isDwdCredential (cred_id c) = true) ->
  nonDwdCredentials l = [].
Proof.
  induction l as [|c l IH]; intros Hl; [done|].
  unfold nonDwdCredentials. simpl. rewrite (Hl c) by (by left). simpl.
  apply IH. intros x Hx. apply Hl. by right.
Qed.

(** The survivors of the filter, normalized, survive the filter again. *)
Lemma nonDwdCredentials_survivors (l : list Credential) :
  nonDwdCredentials (buildNonDwdCredentials (nonDwdCredentials l))
  = buildNonDwdCredentials (nonDwdCredentials l).
Proof.
  unfold nonDwdCredentials, buildNonDwdCredentials.
  induction l as [|c l IH]; [done|]. simpl.
  destruct (isDwdCredential (cred_id c)) eqn:Hc; simpl; [exact IH|].
  rewrite Hc. simpl. by rewrite IH.
Qed.

(** X3. Enriching twice changes nothing: when the ids of the delegated
    credentials are flagged as delegated-credential ids, merging them with a
    list that is already the result of merging them gives that list. *)
Theorem buildAllCredentials_enrich_again
    (dwdCredentials existingCredentials : list Credential) :
  (forall c, In c dwdCredentials -> isDwdCredential (cred_id c) = true) ->
  buildAllCredentials dwdCredentials
    (buildAllCredentials dwdCredentials existingCredentials)
  = buildAllCredentials dwdCredentials existingCredentials.
Proof.
  intros Hflag.
  rewrite (buildAllCredentials_split dwdCredentials (buildAllCredentials _ _)).
  rewrite (buildAllCredentials_split dwdCredentials existingCredentials).
  rewrite nonDwdCredentials_app, nonDwdCredentials_survivors.
  rewrite nonDwdCredentials_all_flagged.
  - simpl. by rewrite buildNonDwdCredentials_idempotent.
  - intros c Hc. apply Hflag.
    apply uniqueFrom_In in Hc. by destruct Hc as [[]|Hc].
Qed.

(** *** Further properties of the resolver *)

(** The entry of an id is made from the last user of the batch with it. *)
Lemma credentialsByUserId_lookup (dwd : DomainWideDelegation)
    (users : list User) (i : Z) :
  credentialsByUserId dwd users !! i
  = _buildDwdCredentials (Some dwd)
    <$> find (fun user => Z.eqb (user_id user) i) (rev users).
Proof.
  unfold credentialsByUserId. rewrite <- fold_left_rev_right.
  induction (rev users) as [|user l IH]; [done|]. simpl.
  destruct (Z.eqb (user_id user) i) eqn:Hi.
  - apply Z.eqb_eq in Hi. subst i. by rewrite lookup_insert_eq.
  - apply Z.eqb_neq in Hi. by rewrite lookup_insert_ne.
Qed.

Lemma find_id_None (l : list User) (i : Z) :
  ~ In i (map user_id l) ->
  find (fun user => Z.eqb (user_id user) i) l = None.
Proof.
  intros Hi. apply find_all_false. intros user Huser.
  apply Z.eqb_neq. intros Heq. apply Hi. rewrite <- Heq. by apply in_map.
Qed.

Lemma credentialsByUserId_last (dwd : DomainWideDelegation)
    (before : list User) (user : User) (after : list User) :
  ~ In (user_id user) (map user_id after) ->
  credentialsByUserId dwd (before ++ user :: after) !! user_id user
  = Some (_buildDwdCredentials (Some dwd) user).
Proof.
  intros Hlast.
  rewrite credentialsByUserId_lookup, rev_app_distr. simpl.
  rewrite <- app_assoc. simpl.
  assert (forall l1 l2 : list User,
            find (fun u => Z.eqb (user_id u) (user_id user)) l1 = None ->
            find (fun u => Z.eqb (user_id u) (user_id user)) (l1 ++ l2)
            = find (fun u => Z.eqb (user_id u) (user_id user)) l2) as Hskip.
  { induction l1 as [|x l1 IH]; intros l2 Hnone; [done|]. simpl in *.
    destruct (Z.eqb (user_id x) (user_id user)); [done|by apply IH]. }
  rewrite Hskip.
  - simpl. by rewrite Z.eqb_refl.
  - apply find_id_None. by rewrite map_rev, <- in_rev.
Qed.

(** X4. The mapping built for a batch has an entry exactly for the ids of
    the batch, and the entry of an id holds the credentials built for the
    last user of the batch with that id. *)
Theorem credentialsByUserId_last_wins (dwd : DomainWideDelegation)
    (users : list User) :
  (forall i, ~ In i (map user_id users) ->
             credentialsByUserId dwd users !! i = None)
  /\ (forall i, In i (map user_id users) ->
                is_Some (credentialsByUserId dwd users !! i))
  /\ (forall before user after,
        users = before ++ user :: after ->
        ~ In (user_id user) (map user_id after) ->
        credentialsByUserId dwd users !! user_id user
        = Some (_buildDwdCredentials (Some dwd) user)).
Proof.
  split; [|split].
  - intros i Hi. rewrite credentialsByUserId_lookup, find_id_None; [done|].
    rewrite map_rev, <- in_rev. exact Hi.
  - intros i Hi. rewrite credentialsByUserId_lookup.
    destruct (find _ (rev users)) as [user|] eqn:Hfind; [by eexists|].
    exfalso. apply in_map_iff in Hi as [user [Hid Huser]].
    apply in_rev in Huser. apply (find_none _ _ Hfind) in Huser.
    apply Z.eqb_neq in Huser. done.
  - intros before user after -> Hlast. by apply credentialsByUserId_last.
Qed.

(** *** Further properties of enrichment *)

(** The record [user] with its credentials replaced. *)
Definition withCredentials (user : TUser) (credentials : list Credential)
    : TUser :=
  {| tuser_id := tuser_id user;
     tuser_email := tuser_email user;
     tuser_rest := tuser_rest user;
     tuser_credentials := credentials |}.

(** The stored credentials that the merger lets through, normalized. *)
Definition survivors (user : TUser) : list Credential :=
  buildNonDwdCredentials (nonDwdCredentials (tuser_credentials user)).

Lemma buildAllCredentials_nil (existingCredentials : list Credential) :
  buildAllCredentials [] existingCredentials
  = buildNonDwdCredentials (nonDwdCredentials existingCredentials).
Proof. by rewrite buildAllCredentials_split. Qed.

Lemma buildDwdCredentials_not_google (dwd : DomainWideDelegation) (user : User) :
  dwd_slug dwd <> "google" -> _buildDwdCredentials (Some dwd) user = [].
Proof.
  intros Hslug. apply String.eqb_neq in Hslug.
  unfold _buildDwdCredentials, _buildDwdCalendarCredential,
    _buildDwdConferencingCredential.
  rewrite Hslug. by destruct (dwd_enabled dwd).
Qed.

Lemma buildDwdCredentials_google (dwd : DomainWideDelegation) (user : User) :
  dwd_enabled dwd = true -> dwd_slug dwd = "google" ->
  _buildDwdCredentials (Some dwd) user
  = [_buildCommonUserCredential (meta_type googleCalendarMetadata)
       (meta_slug googleCalendarMetadata) dwd user;
     _buildCommonUserCredential (meta_type googleMeetMetadata)
       (meta_slug googleMeetMetadata) dwd user].
Proof.
  intros Hon Hslug. apply String.eqb_eq in Hslug.
  unfold _buildDwdCredentials, _buildDwdCalendarCredential,
    _buildDwdConferencingCredential.
  by rewrite Hon, Hslug.
Qed.

(** When every entry of the mapping is empty, enrichment leaves the
    survivors only. *)
Lemma enrichUser_no_entry (m : gmap Z (list Credential)) (user : TUser) :
  default [] (m !! tuser_id user) = [] ->
  enrichUser m user = withCredentials user (survivors user).
Proof.
  intros Hm. unfold enrichUser, withCredentials, survivors.
  by rewrite Hm, buildAllCredentials_nil.
Qed.

(** X5. When no delegation applies (the organization id is null or zero,
    or the repository has no configuration for the domain of the first
    user, or a disabled one, or one of a platform other than "google"),
    enrichment returns every user with the stored credentials that are not
    flagged, normalized, and nothing else. *)
Theorem enrichUsers_without_delegation (orgId : option Z) (users : list TUser) :
  truthy_num orgId = false
  \/ (exists org first others,
        orgId = Some org /\ users = first :: others
        /\ match findUniqueByOrganizationIdAndDomain org
                  (emailDomain (tuser_email first)) with
           | None => True
           | Some dwd => dwd_enabled dwd = false \/ dwd_slug dwd <> "google"
           end) ->
  enrichUsersWithDwdCredentials orgId users
  = Returned (map (fun user => withCredentials user (survivors user)) users).
Proof.
  intros Hcase. unfold enrichUsersWithDwdCredentials.
  assert (exists m,
            _getDwdCredentialsMapPerUser orgId (map asUser users) = Returned m
            /\ forall i, default [] (m !! i) = []) as (m & -> & Hm).
  { unfold _getDwdCredentialsMapPerUser.
    destruct Hcase as [Horg|(org & first & others & -> & -> & Hrepo)].
    - rewrite Horg. simpl. by exists ∅.
    - destruct (truthy_num (Some org)); simpl; [|by exists ∅].
      destruct (findUniqueByOrganizationIdAndDomain _ _) as [dwd|];
        [|by exists ∅].
      destruct (dwd_enabled dwd) eqn:Hon; simpl; [|by exists ∅].
      destruct Hrepo as [Hoff|Hslug]; [done|].
      eexists. split; [reflexivity|]. intros i.
      rewrite credentialsByUserId_lookup.
      destruct (find _ _) as [user|]; [|done]. simpl.
      by apply buildDwdCredentials_not_google. }
  f_equal. apply map_ext. intros user. by apply enrichUser_no_entry.
Qed.

(** With distinct ids in the batch, every user gets the credentials built
    for that user, ahead of the survivors. *)
Lemma enrichUser_entry (dwd : DomainWideDelegation) (users : list TUser)
    (user : TUser) :
  dwd_enabled dwd = true -> dwd_slug dwd = "google" ->
  meta_slug googleCalendarMetadata <> meta_slug googleMeetMetadata ->
  NoDup (map tuser_id users) -> In user users ->
  enrichUser (credentialsByUserId dwd (map asUser users)) user
  = withCredentials user
      (_buildDwdCredentials (Some dwd) (asUser user) ++ survivors user).
Proof.
  intros Hon Hslug Hslugs Hids Huser.
  apply in_split in Huser as (before & after & ->).
  unfold enrichUser, withCredentials, survivors. f_equal.
  rewrite map_app. cbn [map].
  change (tuser_id user) with (user_id (asUser user)) at 1.
  rewrite credentialsByUserId_last.
  - rewrite (buildDwdCredentials_google _ _ Hon Hslug).
    cbn [default from_option id]. rewrite buildAllCredentials_split.
    f_equal. refine (uniqueFrom_distinct [_; _] [] _). simpl.
    apply NoDup_cons. split; [|apply NoDup_singleton].
    rewrite list_elem_of_singleton. unfold dwdKey. simpl. congruence.
  - rewrite map_map. simpl.
    rewrite map_app in Hids. simpl in Hids.
    apply NoDup_app in Hids as (_ & _ & Hafter).
    apply NoDup_cons in Hafter as [Hnotin _].
    intros Hin. apply Hnotin. by apply list_elem_of_In.
Qed.

Lemma resolver_enabled (org : Z) (first : TUser) (others : list TUser)
    (dwd : DomainWideDelegation) :
  org <> 0 ->
  findUniqueByOrganizationIdAndDomain org (emailDomain (tuser_email first))
  = Some dwd ->
  dwd_enabled dwd = true ->
  _getDwdCredentialsMapPerUser (Some org) (map asUser (first :: others))
  = Returned (credentialsByUserId dwd (map asUser (first :: others))).
Proof.
  intros Horg Hrepo Hon. unfold _getDwdCredentialsMapPerUser.
  apply Z.eqb_neq in Horg. simpl. rewrite Horg. simpl.
  by rewrite Hrepo, Hon.
Qed.

(** X6. When an enabled "google" configuration is found for a batch of
    users with pairwise distinct ids, and the two apps have different
    slugs, enrichment returns every user with the calendar credential and
    the conferencing credential built for that user, followed by the stored
    credentials that are not flagged, normalized. *)
Theorem enrichUsers_with_delegation (org : Z) (first : TUser)
    (others : list TUser) (dwd : DomainWideDelegation) :
  org <> 0 ->
  findUniqueByOrganizationIdAndDomain org (emailDomain (tuser_email first))
  = Some dwd ->
  dwd_enabled dwd = true -> dwd_slug dwd = "google" ->
  meta_slug googleCalendarMetadata <> meta_slug googleMeetMetadata ->
  NoDup (map tuser_id (first :: others)) ->
  enrichUsersWithDwdCredentials (Some org) (first :: others)
  = Returned
      (map (fun user =>
              withCredentials user
                (_buildDwdCredentials (Some dwd) (asUser user)
                 ++ survivors user))
         (first :: others)).
Proof.
  intros Horg Hrepo Hon Hslug Hslugs Hids.
  unfold enrichUsersWithDwdCredentials.
  rewrite (resolver_enabled org first others dwd Horg Hrepo Hon). f_equal.
  apply map_ext_in. intros u Hu.
  by apply (enrichUser_entry dwd (first :: others) u).
Qed.

(** *** Properties of the selections *)

(** The last character of a string. *)
Fixpoint lastChar (s : string) : option ascii :=
  match s with
  | EmptyString => None
  | String c rest =>
      match rest with
      | EmptyString => Some c
      | String _ _ => lastChar rest
      end
  end.

Lemma substring_whole (s : string) : String.substring 0 (String.length s) s = s.
Proof. induction s as [|c s IH]; simpl; [done|by rewrite IH]. Qed.

Lemma lastChar_substring (s : string) :
  forall k, (k < String.length s)%nat ->
    lastChar (String.substring k (String.length s - k) s) = lastChar s.
Proof.
  induction s as [|c s IH]; intros k Hk; simpl in Hk; [lia|].
  destruct k as [|k].
  - rewrite Nat.sub_0_r. simpl. by rewrite substring_whole.
  - simpl. rewrite IH by lia. destruct s; [simpl in Hk; lia|done].
Qed.

Lemma endsWith_lastChar (s suffix : string) :
  suffix <> "" -> endsWith s suffix = true -> lastChar s = lastChar suffix.
Proof.
  intros Hne. unfold endsWith. rewrite andb_true_iff.
  intros [Hlen Heq]. apply Nat.leb_le in Hlen. apply String.eqb_eq in Heq.
  assert (0 < String.length suffix)%nat as Hpos.
  { destruct suffix; [done|simpl; lia]. }
  rewrite <- Heq at 1.
  replace (String.length suffix)
    with (String.length s - (String.length s - String.length suffix))%nat
    at 2 by lia.
  symmetry. apply lastChar_substring. lia.
Qed.

Lemma isCalendar_not_isConferencing (c : Credential) :
  _isCalendarCredential c = true -> _isConferencingCredential c = false.
Proof.
  unfold _isCalendarCredential, _isConferencingCredential. intros Hcal.
  apply endsWith_lastChar in Hcal; [|done].
  repeat match goal with
         | |- context [endsWith (cred_type c) ?suffix] =>
             let H := fresh "H" in
             destruct (endsWith (cred_type c) suffix) eqn:H;
             [apply endsWith_lastChar in H; [|done]; rewrite Hcal in H;
              discriminate H|]
         end.
  reflexivity.
Qed.

(** X7. No credential is both a calendar credential and a conferencing
    credential, and conferencing enrichment of a user returns the user with
    exactly the conferencing credentials of the merged set, in their order:
    never a calendar credential, and every other field as it was. *)
Theorem conferencing_enrichment_excludes_calendar :
  (forall c, _isCalendarCredential c = true ->
             _isConferencingCredential c = false)
  /\ (forall user,
        let merged :=
          tuser_credentials (enrichUserWithDwdCredentialsWithoutOrgId user) in
        let out := enrichUserWithDwdConferencingCredentialsWithoutOrgId user in
        tuser_id out = tuser_id user
        /\ tuser_email out = tuser_email user
        /\ tuser_rest out = tuser_rest user
        /\ sublist (tuser_credentials out) merged
        /\ (forall c, In c (tuser_credentials out)
                      <-> In c merged /\ _isConferencingCredential c = true)
        /\ (forall c, In c (tuser_credentials out) ->
                      _isCalendarCredential c = false)).
Proof.
  split; [exact isCalendar_not_isConferencing|].
  intros user merged out. subst merged out. simpl.
  split; [done|]. split; [done|]. split; [done|]. split; [|split].
  - induction (buildAllCredentials _ _) as [|c l IH]; simpl; [done|].
    destruct (_isConferencingCredential c);
      [by apply sublist_skip|by apply sublist_cons].
  - intros c. by rewrite filter_In.
  - intros c Hc. apply filter_In in Hc as [_ Hconf].
    destruct (_isCalendarCredential c) eqn:Hcal; [|done].
    apply isCalendar_not_isConferencing in Hcal. congruence.
Qed.

(** X8. [findDwdCredentials] is empty and [findDwdCalendarCredential] is
    null when the user does not exist; a credential that
    [findDwdCalendarCredential] returns is a calendar credential built for
    the user found, from an enabled "google" configuration found under the
    id: placeholder id -1, back-reference to that configuration, the user's
    id and email. *)
Theorem findDwdCalendarCredential_built_for_user (userId : Z) (dwdId : string) :
  (UserRepository_findById userId = None ->
   findDwdCredentials userId dwdId = []
   /\ findDwdCalendarCredential userId dwdId = None)
  /\ (forall c,
        findDwdCalendarCredential userId dwdId = Some c ->
        exists dwd user,
          findByIdIncludeSensitiveServiceAccountKey dwdId = Some dwd
          /\ dwd_enabled dwd = true /\ dwd_slug dwd = "google"
          /\ UserRepository_findById userId = Some user
          /\ _isCalendarCredential c = true
          /\ cred_id c = -1
          /\ cred_delegatedToId c = Some (dwd_id dwd)
          /\ cred_userId c = Some (user_id user)
          /\ cred_user_email c = Some (user_email user)).
Proof.
  unfold findDwdCalendarCredential, findDwdCredentials. split.
  - by intros ->.
  - intros c Hc. apply head_Some_elem_of, list_elem_of_In in Hc.
    apply filter_In in Hc as [Hin Hcal].
    destruct (UserRepository_findById userId) as [user|]; [|done].
    destruct (findByIdIncludeSensitiveServiceAccountKey dwdId) as [dwd|];
      [|done].
    exists dwd, user.
    destruct (dwd_enabled dwd) eqn:Hon;
      [|unfold _buildDwdCredentials in Hin; rewrite Hon in Hin; done].
    destruct (String.eqb (dwd_slug dwd) "google") eqn:Hslug.
    + apply String.eqb_eq in Hslug.
      rewrite (buildDwdCredentials_google _ _ Hon Hslug) in Hin.
      destruct Hin as [<-|[<-|[]]]; repeat split; done.
    + apply String.eqb_neq in Hslug.
      by rewrite (buildDwdCredentials_not_google _ _ Hslug) in Hin.
Qed.

(** X9. The conferencing location is decided by the first conferencing
    credential of the list alone: it is null when the list has none, and
    null when the first one is not the Google Meet app, whatever comes
    after it. *)
Theorem conferencing_location_by_first_credential :
  (forall credentials,
      Forall (fun c => _isConferencingCredential c = false) credentials ->
      getFirstDwdConferencingCredentialAppLocation credentials = None)
  /\ (forall before c after,
        Forall (fun x => _isConferencingCredential x = false) before ->
        _isConferencingCredential c = true ->
        getFirstDwdConferencingCredentialAppLocation (before ++ c :: after)
        = if bool_decide (cred_appId c = Some (meta_slug googleMeetMetadata))
          then googleMeetLocationType else None).
Proof.
  unfold getFirstDwdConferencingCredentialAppLocation,
    getFirstDwdConferencingCredential.
  split.
  - intros credentials Hnone. rewrite find_all_false; [done|].
    intros x Hx. rewrite Forall_forall in Hnone.
    by apply Hnone, list_elem_of_In.
  - intros before c after Hbefore Hc.
    assert (find _isConferencingCredential (before ++ c :: after) = Some c)
      as ->; [|done].
    induction Hbefore as [|x before Hx _ IH]; simpl; [by rewrite Hc|].
    by rewrite Hx.
Qed.

End Server.

Arguments cred_type {ServiceAccountKey} _.
Arguments cred_appId {ServiceAccountKey} _.
Arguments cred_id {ServiceAccountKey} _.
Arguments cred_delegatedToId {ServiceAccountKey} _.
Arguments uniqueFrom {ServiceAccountKey} _ _.
Arguments sameDwdAndApp {ServiceAccountKey} _ _.
Arguments dwdKey {ServiceAccountKey} _.
Arguments buildAllCredentials {ServiceAccountKey} _ _ _.
Arguments getDwdOrRegularCredential {ServiceAccountKey} _ _.
Arguments _buildDwdCredentials {ServiceAccountKey} _ _ _ _.
Arguments _getDwdCredentialsMapPerUser {ServiceAccountKey} _ _ _ _ _.

(** *** Concrete inputs

    An instance of what the section leaves open: the metadata of the two
    Google apps, a flag on negative credential ids, a service-account key
    that carries nothing, and a repository without configurations. *)

Definition googleCalendar : AppMetadata :=
  {| meta_type := "google_calendar"; meta_slug := "google-calendar" |}.

Definition googleMeet : AppMetadata :=
  {| meta_type := "google_video"; meta_slug := "google-meet" |}.

Definition negativeId (credentialId : Z) : bool := Z.ltb credentialId 0.

Definition noConfiguration (organizationId : Z) (domain : option string)
    : option (DomainWideDelegation unit) := None.

Definition acme : DomainWideDelegation unit :=
  {| dwd_id := "dwd-acme"; dwd_slug := "google";
     dwd_serviceAccountKey := None; dwd_enabled := true |}.

Definition alice : User := {| user_email := "alice@acme.test"; user_id := 7 |}.

(** A stored row of the credentials table. *)
Definition storedZoom : Credential unit :=
  {| cred_type := "zoom_video"; cred_appId := Some "zoom"; cred_id := 101;
     cred_delegatedToId := None; cred_userId := Some 7;
     cred_user_email := Some "alice@acme.test"; cred_key := "k";
     cred_invalid := false; cred_teamId := None; cred_delegatedTo := None |}.

(** A credential whose back-reference is the empty string: not null, and
    falsy in JavaScript. *)
Definition emptyReference (id : Z) : Credential unit :=
  {| cred_type := "google_calendar"; cred_appId := Some "google-calendar";
     cred_id := id; cred_delegatedToId := Some ""; cred_userId := Some 7;
     cred_user_email := Some "alice@acme.test";
     cred_key := "NOOP_UNUSED_DELEGATION_TOKEN";
     cred_invalid := false; cred_teamId := None; cred_delegatedTo := None |}.

Definition aliceDelegated : list (Credential unit) :=
  _buildDwdCredentials googleCalendar googleMeet (Some acme) alice.

Example buildDwdCredentials_acme_alice :
  map (fun c => (cred_type c, cred_appId c, cred_id c, cred_delegatedToId c))
    aliceDelegated
  = [("google_calendar", Some "google-calendar", -1, Some "dwd-acme");
     ("google_video", Some "google-meet", -1, Some "dwd-acme")].
Proof. reflexivity. Qed.

Example buildDwdCredentials_one_of_each :
  List.filter (_isCalendarCredential unit) aliceDelegated
  = [_buildCommonUserCredential unit "google_calendar" "google-calendar" acme alice]
  /\ List.filter (_isConferencingCredential unit) aliceDelegated
     = [_buildCommonUserCredential unit "google_video" "google-meet" acme alice].
Proof. split; reflexivity. Qed.

Example buildAllCredentials_enriched_twice :
  buildAllCredentials negativeId aliceDelegated (aliceDelegated ++ [storedZoom])
  = aliceDelegated ++ [storedZoom].
Proof. reflexivity. Qed.

(** A repository with the configuration [acme] for organization 1 and the
    domain of its members. *)
Definition acmeRepository (organizationId : Z) (domain : option string)
    : option (DomainWideDelegation unit) :=
  if Z.eqb organizationId 1 && bool_decide (domain = Some "acme.test")
  then Some acme else None.

(** A user record with one stored credential and a name as its other field. *)
Definition aliceRecord : TUser unit string :=
  {| tuser_id := 7; tuser_email := "alice@acme.test";
     tuser_credentials := [storedZoom]; tuser_rest := "Alice" |}.

Example emailDomain_pieces :
  emailDomain "alice@acme.test" = Some "acme.test"
  /\ emailDomain "nobody" = None
  /\ emailDomain "a@b@c" = Some "b".
Proof. repeat split. Qed.

Example resolver_acme_alice :
  _getDwdCredentialsMapPerUser googleCalendar googleMeet acmeRepository
    (Some 1) [alice]
  = Returned {[ 7 := aliceDelegated ]}.
Proof. reflexivity. Qed.

Example resolver_empty_batch :
  _getDwdCredentialsMapPerUser googleCalendar googleMeet acmeRepository
    (Some 1) []
  = TypeErrorThrown.
Proof. reflexivity. Qed.

Example enrichUsers_in_store :
  enrichUsersWithDwdCredentials_store unit googleCalendar googleMeet negativeId
    acmeRepository string unit (Some 1)
    [UserObject unit string unit aliceRecord] [0%nat]
  = Some (Returned
            ([UserObject unit string unit aliceRecord;
              UserObject unit string unit
                {| tuser_id := 7; tuser_email := "alice@acme.test";
                   tuser_credentials := aliceDelegated ++ [storedZoom];
                   tuser_rest := "Alice" |}],
             [1%nat])).
Proof. vm_compute. reflexivity. Qed.

(** C3, the claim as stated fails: the second of two equal credentials with
    the back-reference [""] (not null) is kept, although the first, kept
    before it, has the same back-reference and the same app identifier. *)
Lemma buildAllCredentials_empty_reference_kept_twice :
  cred_delegatedToId (emptyReference (-1)) <> None
  /\ existsb (sameDwdAndApp (emptyReference (-1)))
       (uniqueFrom [] [emptyReference (-1)]) = true
  /\ buildAllCredentials negativeId
       [emptyReference (-1); emptyReference (-1)] []
     = [emptyReference (-1); emptyReference (-1)].
Proof. repeat split. discriminate. Qed.

(** C4, the claim as stated fails: one delegated credential with the
    delegation id [""] (so its pairs are pairwise distinct), merged twice,
    appears twice; merged once, once. *)
Lemma buildAllCredentials_twice_empty_reference :
  cred_delegatedToId (emptyReference (-1)) <> None
  /\ NoDup (map dwdKey [emptyReference (-1)])
  /\ buildAllCredentials negativeId
       ([emptyReference (-1)] ++ [emptyReference (-1)]) [storedZoom]
     <> buildAllCredentials negativeId [emptyReference (-1)] [storedZoom].
Proof.
  split; [discriminate|]. split; [|discriminate].
  apply NoDup_singleton.
Qed.

(** A witness of C4: the two credentials built for a user, passed twice. *)
Lemma buildAllCredentials_twice_witness :
  buildAllCredentials negativeId (aliceDelegated ++ aliceDelegated) [storedZoom]
  = buildAllCredentials negativeId aliceDelegated [storedZoom]
  /\ buildAllCredentials negativeId aliceDelegated [storedZoom]
     = aliceDelegated ++ buildNonDwdCredentials unit (nonDwdCredentials unit negativeId [storedZoom]).
Proof.
  apply (buildAllCredentials_twice unit negativeId aliceDelegated [storedZoom]).
  - repeat constructor.
  - apply NoDup_ListNoDup. repeat constructor; simpl; intros H;
      repeat (destruct H as [H|H]; [discriminate H|]); exact H.
Defined.

(** C5, the claim as stated fails: a credential whose back-reference is not
    null (it is [""]) is found through the numeric id 5, with no delegation
    id supplied. *)
Lemma getDwdOrRegularCredential_empty_reference_by_number :
  cred_delegatedToId (emptyReference 5) <> None
  /\ getDwdOrRegularCredential [emptyReference 5]
       {| credentialId := Some 5; dwdId := None |}
     = Some (emptyReference 5).
Proof. split; [discriminate|reflexivity]. Qed.

(** C9, the claim as stated fails: the organization id 0 is not null, the
    batch is empty, and the resolver returns the empty mapping without
    reading a user. *)
Lemma getDwdCredentialsMapPerUser_zero_organization :
  Some 0 <> (None : option Z)
  /\ _getDwdCredentialsMapPerUser googleCalendar googleMeet noConfiguration
       (Some 0) []
     = Returned ∅
  /\ _getDwdCredentialsMapPerUser googleCalendar googleMeet noConfiguration
       (Some 0) []
     <> TypeErrorThrown.
Proof. repeat split; discriminate. Qed.

(** A second user of the organization. *)
Definition bobRecord : TUser unit string :=
  {| tuser_id := 8; tuser_email := "bob@acme.test";
     tuser_credentials := []; tuser_rest := "Bob" |}.

(** A witness of X1: a user enriched twice over has one calendar and one
    conferencing credential, with different keys. *)
Lemma buildAllCredentials_no_duplicate_delegated_witness :
  ~ (cred_delegatedToId
       (_buildCommonUserCredential unit "google_calendar" "google-calendar"
          acme alice)
     = cred_delegatedToId
         (_buildCommonUserCredential unit "google_video" "google-meet"
            acme alice)
     /\ cred_appId
          (_buildCommonUserCredential unit "google_calendar" "google-calendar"
             acme alice)
        = cred_appId
            (_buildCommonUserCredential unit "google_video" "google-meet"
               acme alice)).
Proof.
  apply (buildAllCredentials_no_duplicate_delegated unit negativeId
           (aliceDelegated ++ aliceDelegated) [storedZoom] 0%nat 1%nat);
    [reflexivity|reflexivity|reflexivity|lia].
Defined.

(** A witness of X3: the merged credentials of a user, merged again. *)
Lemma buildAllCredentials_enrich_again_witness :
  buildAllCredentials negativeId aliceDelegated
    (buildAllCredentials negativeId aliceDelegated [storedZoom])
  = buildAllCredentials negativeId aliceDelegated [storedZoom].
Proof.
  apply (buildAllCredentials_enrich_again unit negativeId aliceDelegated
           [storedZoom]).
  intros c Hc. simpl in Hc.
  destruct Hc as [<-|[<-|[]]]; reflexivity.
Defined.

(** A witness of X5: no organization. *)
Lemma enrichUsers_without_delegation_witness :
  enrichUsersWithDwdCredentials unit googleCalendar googleMeet negativeId
    acmeRepository string None [aliceRecord; bobRecord]
  = Returned
      (map (fun user =>
              withCredentials unit string user
                (survivors unit negativeId string user))
         [aliceRecord; bobRecord]).
Proof.
  apply (enrichUsers_without_delegation unit googleCalendar googleMeet
           negativeId acmeRepository string None [aliceRecord; bobRecord]).
  left. reflexivity.
Defined.

(** A witness of X6: two members of the organization. *)
Lemma enrichUsers_with_delegation_witness :
  enrichUsersWithDwdCredentials unit googleCalendar googleMeet negativeId
    acmeRepository string (Some 1) [aliceRecord; bobRecord]
  = Returned
      (map (fun user =>
              withCredentials unit string user
                (_buildDwdCredentials googleCalendar googleMeet (Some acme)
                   (asUser unit string user)
                 ++ survivors unit negativeId string user))
         [aliceRecord; bobRecord]).
Proof.
  apply (enrichUsers_with_delegation unit googleCalendar googleMeet negativeId
           acmeRepository string 1 aliceRecord [bobRecord] acme);
    [lia|reflexivity|reflexivity|reflexivity|discriminate|].
  apply NoDup_ListNoDup. repeat constructor; simpl; intros H;
    repeat (destruct H as [H|H]; [discriminate H|]); exact H.
Defined.

End DomainWideDelegation.

(** ** CSRF token manager *)

Module CSRF.

(** [new InvalidCSRFError()]. *)
Definition InvalidCSRFError : HttpError :=
  {| statusCode := 403; message := "Invalid CSRF token" |}.

(** A call either completes or throws. *)
Inductive result (A : Type) : Type :=
| Done (a : A)
| Throw (e : HttpError).
Arguments Done {A} a.
Arguments Throw {A} e.

Record SerializeOptions := {
  httpOnly : bool;
  path : string;
  sameSite : string;
  secure : bool;
}.

(** [serialize(name, value, options)] of the [cookie] package: the
    [Set-Cookie] line, kept as the three arguments it is made from. *)
Record SetCookie := {
  cookie_name : string;
  cookie_value : string;
  cookie_options : SerializeOptions;
}.

Definition serialize (name value : string) (options : SerializeOptions)
    : SetCookie :=
  {| cookie_name := name; cookie_value := value; cookie_options := options |}.

(** [IncomingMessage]: only [headers.cookie] is read. *)
Record IncomingMessage := {
  headers_cookie : option string;
}.

(** [ServerResponse]: only the [Set-Cookie] header is written;
    [setHeader] replaces the value the header had. *)
Record ServerResponse := {
  set_cookie : option (list SetCookie);
}.

Definition setHeader_SetCookie (res : ServerResponse) (value : list SetCookie)
    : ServerResponse :=
  {| set_cookie := Some value |}.

(** What [setup] may receive: a response with [setHeader] (Pages Router), a
    response with a [cookies] store (App Router), or neither. *)
Inductive SetupResponse : Type :=
| PagesRouter (res : ServerResponse)
| AppRouter (cookies : gmap string (string * SerializeOptions))
| OtherResponse.

(** [str.replace(/c/g, by)] for a single character [c]. *)
Fixpoint replaceAll (c : ascii) (by_ : string) (str : string) : string :=
  match str with
  | EmptyString => EmptyString
  | String a rest =>
      if Ascii.eqb a c then by_ +:+ replaceAll c by_ rest
      else String a (replaceAll c by_ rest)
  end.

(** [str.indexOf(c)] for a single character [c]; [None] stands for -1. *)
Fixpoint indexOf (c : ascii) (str : string) : option nat :=
  match str with
  | EmptyString => None
  | String a rest =>
      if Ascii.eqb a c then Some 0%nat else option_map S (indexOf c rest)
  end.

(** [String.prototype.toLowerCase] on ASCII letters. *)
Definition lowerAscii (a : ascii) : ascii :=
  let n := nat_of_ascii a in
  if (Nat.leb 65 n && Nat.leb n 90)%bool then ascii_of_nat (n + 32) else a.

Fixpoint toLowerCase (s : string) : string :=
  match s with
  | EmptyString => EmptyString
  | String a rest => String (lowerAscii a) (toLowerCase rest)
  end.

Lemma if_same_throw {A : Type} (b : bool) (e : HttpError) :
  (if b then Throw e else Throw e) = (Throw e : result A).
Proof. by destruct b. Qed.

Section RealCSRF.

(** The packages the class imports: [parse] of [cookie], [sign] and
    [unsign] of [cookie-signature] ([unsign] returns [false], here [None],
    when the signature is wrong), and the SHA-1 digest in base64 of
    [crypto].  [compare] of [tsscmp] is string equality computed in constant
    time; its result is [String.eqb]. *)
Variable parse : string -> gmap string string.
Variable sign : string -> string -> string.
Variable unsign : string -> string -> option string.
Variable sha1_base64 : string -> string.

(** [this.secret = process.env.NEXTAUTH_SECRET] and
    [process.env.NODE_ENV === "production"]. *)
Variable this_secret : string.
Variable production : bool.

Definition secretCookieName : string := "csrfSecret".
Definition tokenCookieName : string := "XSRF-TOKEN".

Definition cookieOptions : SerializeOptions :=
  {| httpOnly := true; path := "/"; sameSite := "lax"; secure := production |}.

Definition hash (str : string) : string :=
  replaceAll "=" "" (replaceAll "/" "_" (replaceAll "+" "-" (sha1_base64 str))).

Definition tokenize (secret salt : string) : string :=
  salt +:+ "-" +:+ hash (salt +:+ "-" +:+ secret).

Definition verifyToken (secret token : string) : bool :=
  match indexOf "-" token with
  | None => false
  | Some index =>
      let salt := String.substring 0 index token in
      let expected := tokenize secret salt in
      String.eqb token expected
  end.

(** [createToken]: [salt] is the value of [randomBytes(32).toString("hex")]. *)
Definition createToken (secret salt : string) : string :=
  tokenize secret salt.

(** [getSecret]: [fresh] is the value of [uid.sync(18)]. *)
Definition getSecret (req : IncomingMessage) (fresh : string) : string :=
  if truthy_str (headers_cookie req) then
    match headers_cookie req with
    | Some header =>
        let parsedCookie := parse header in
        let secret := parsedCookie !! toLowerCase secretCookieName in
        if truthy_str secret then default fresh secret else fresh
    | None => fresh
    end
  else fresh.

(** [setup]: [fresh] and [salt] are the two random values drawn. *)
Definition setup (req : IncomingMessage) (res : SetupResponse)
    (fresh salt : string) : SetupResponse :=
  let csrfSecret := getSecret req fresh in
  let unsignedToken := createToken csrfSecret salt in
  let token := sign unsignedToken this_secret in
  match res with
  | PagesRouter res =>
      PagesRouter
        (setHeader_SetCookie res
           [serialize secretCookieName csrfSecret cookieOptions;
            serialize tokenCookieName token cookieOptions])
  | AppRouter cookieAPI =>
      AppRouter
        (<[tokenCookieName := (token, cookieOptions)]>
           (<[secretCookieName := (csrfSecret, cookieOptions)]> cookieAPI))
  | OtherResponse => OtherResponse
  end.

(** [verify]: [salt] is the random value drawn for the new token. *)
Definition verify (req : IncomingMessage) (res : ServerResponse)
    (salt : string) : result ServerResponse :=
  match headers_cookie req with
  | None => Throw InvalidCSRFError
  | Some header =>
      let cookie := parse header in
      let token := cookie !! tokenCookieName in
      let csrfSecret := cookie !! secretCookieName in
      if negb (truthy_str token) || negb (truthy_str csrfSecret) then
        Throw InvalidCSRFError
      else
        match token, csrfSecret with
        | Some token, Some csrfSecret =>
            let unsignedToken := unsign token this_secret in
            if negb (truthy_str unsignedToken) then Throw InvalidCSRFError
            else
              match unsignedToken with
              | Some token =>
                  if negb (verifyToken csrfSecret token) then
                    Throw InvalidCSRFError
                  else
                    let newToken :=
                      sign (createToken csrfSecret salt) this_secret in
                    Done (setHeader_SetCookie res
                            [serialize tokenCookieName newToken cookieOptions])
              | None => Throw InvalidCSRFError
              end
        | _, _ => Throw InvalidCSRFError
        end
  end.

(** Verification of the same request, once per salt drawn, each call on the
    response the call before it left. *)
Fixpoint verifyEach (req : IncomingMessage) (res : ServerResponse)
    (salts : list string) : result ServerResponse :=
  match salts with
  | [] => Done res
  | salt :: salts' =>
      match verify req res salt with
      | Done res' => verifyEach req res' salts'
      | Throw e => Throw e
      end
  end.

(** *** Properties of the token check *)

(** A salt without the separator, as the hexadecimal salts drawn are. *)
Fixpoint noDash (salt : string) : bool :=
  match salt with
  | EmptyString => true
  | String a rest => negb (Ascii.eqb a "-") && noDash rest
  end.

Lemma verifyToken_empty (secret : string) : verifyToken secret "" = false.
Proof. reflexivity. Qed.

(** A token that verifies is the token made from the secret and from the
    part of it before the first separator. *)
Lemma verifyToken_sound (secret token : string) :
  verifyToken secret token = true ->
  exists index,
    indexOf "-" token = Some index
    /\ token = tokenize secret (String.substring 0 index token).
Proof.
  unfold verifyToken. destruct (indexOf "-" token) as [index|];
    [|discriminate].
  intros H. apply String.eqb_eq in H. by exists index.
Qed.

Lemma index_dash_after_salt (salt rest : string) :
  noDash salt = true ->
  indexOf "-" (salt +:+ String "-" rest) = Some (String.length salt).
Proof.
  induction salt as [|a salt IH]; simpl; [done|].
  intros H. apply andb_true_iff in H. destruct H as [Ha Hsalt].
  apply negb_true_iff in Ha. by rewrite Ha, (IH Hsalt).
Qed.

Lemma substring_salt (salt rest : string) :
  String.substring 0 (String.length salt) (salt +:+ rest) = salt.
Proof.
  induction salt as [|a salt IH]; simpl.
  - by destruct rest.
  - by rewrite IH.
Qed.

(** The token made from a secret and a salt without separator verifies
    against that secret. *)
Lemma verifyToken_tokenize (secret salt : string) :
  noDash salt = true -> verifyToken secret (tokenize secret salt) = true.
Proof.
  intros Hsalt. unfold verifyToken.
  assert (tokenize secret salt
          = salt +:+ String "-" (hash (salt +:+ "-" +:+ secret))) as Hshape
    by reflexivity.
  rewrite Hshape at 1. rewrite (index_dash_after_salt _ _ Hsalt).
  rewrite Hshape at 2. rewrite substring_salt.
  apply String.eqb_refl.
Qed.

(** The completing case of [verify]. *)
Lemma verify_Done_intro (req : IncomingMessage) (res : ServerResponse)
    (salt header token csrfSecret unsignedToken : string) :
  headers_cookie req = Some header ->
  parse header !! tokenCookieName = Some token -> token <> "" ->
  parse header !! secretCookieName = Some csrfSecret -> csrfSecret <> "" ->
  unsign token this_secret = Some unsignedToken ->
  verifyToken csrfSecret unsignedToken = true ->
  verify req res salt
  = Done (setHeader_SetCookie res
            [serialize tokenCookieName
               (sign (tokenize csrfSecret salt) this_secret) cookieOptions]).
Proof.
  intros Hh Ht Htoken Hs Hsecret Hu Hv. unfold verify.
  rewrite Hh, Ht, Hs. simpl.
  apply String.eqb_neq in Htoken, Hsecret. rewrite Htoken, Hsecret. simpl.
  rewrite Hu. simpl.
  destruct (String.eqb unsignedToken "") eqn:He.
  - apply String.eqb_eq in He. subst. by rewrite verifyToken_empty in Hv.
  - simpl. by rewrite Hv.
Qed.

(** A secret cookie with an empty value is rejected before the token is
    looked at, whatever the packages compute. *)
Lemma verify_empty_secret (req : IncomingMessage) (res : ServerResponse)
    (salt header : string) :
  headers_cookie req = Some header ->
  parse header !! secretCookieName = Some "" ->
  verify req res salt = Throw InvalidCSRFError.
Proof.
  intros Hh Hs. unfold verify. rewrite Hh, Hs. simpl.
  by rewrite orb_true_r.
Qed.

(** C6 (amended). Verification throws [InvalidCSRFError], of status 403,
    when the request has no cookie header, when the token cookie or the
    secret cookie is absent or empty, when the signature of the token is
    wrong, and when the token does not verify against the secret of the
    cookie; in every other case it completes and sets, as the only
    [Set-Cookie], the token cookie with a signed token made from the same
    secret and the salt drawn. *)
Theorem verify_throws_or_rotates
    (req : IncomingMessage) (res : ServerResponse) (salt : string) :
  statusCode InvalidCSRFError = 403
  /\ (headers_cookie req = None ->
      verify req res salt = Throw InvalidCSRFError)
  /\ (forall header,
        headers_cookie req = Some header ->
        (truthy_str (parse header !! tokenCookieName) = false
         \/ truthy_str (parse header !! secretCookieName) = false ->
         verify req res salt = Throw InvalidCSRFError)
        /\ (forall token csrfSecret,
              parse header !! tokenCookieName = Some token ->
              parse header !! secretCookieName = Some csrfSecret ->
              (unsign token this_secret = None ->
               verify req res salt = Throw InvalidCSRFError)
              /\ (forall unsignedToken,
                    unsign token this_secret = Some unsignedToken ->
                    verifyToken csrfSecret unsignedToken = false ->
                    verify req res salt = Throw InvalidCSRFError)
              /\ (forall unsignedToken,
                    token <> "" -> csrfSecret <> "" ->
                    unsign token this_secret = Some unsignedToken ->
                    verifyToken csrfSecret unsignedToken = true ->
                    verify req res salt
                    = Done (setHeader_SetCookie res
                              [serialize tokenCookieName
                                 (sign (tokenize csrfSecret salt) this_secret)
                                 cookieOptions])))).
Proof.
  split; [reflexivity|]. split.
  { intros Hnone. unfold verify. by rewrite Hnone. }
  intros header Hheader. split.
  { intros Hfalsy. unfold verify. rewrite Hheader. simpl.
    destruct Hfalsy as [Ht|Hs]; [by rewrite Ht|rewrite Hs].
    by destruct (truthy_str (parse header !! tokenCookieName)). }
  intros token csrfSecret Ht Hs. split; [|split].
  - intros Hu. unfold verify. rewrite Hheader, Ht, Hs. simpl.
    rewrite Hu. simpl. apply if_same_throw.
  - intros unsignedToken Hu Hv. unfold verify. rewrite Hheader, Ht, Hs.
    simpl. rewrite Hu, Hv. simpl. by rewrite !if_same_throw.
  - intros unsignedToken Htoken Hsecret Hu Hv.
    by apply (verify_Done_intro req res salt header token csrfSecret
                unsignedToken).
Qed.

(** What a completed verification says of the request and the response. *)
Lemma verify_Done_inv (req : IncomingMessage) (res res' : ServerResponse)
    (salt : string) :
  verify req res salt = Done res' ->
  exists header token csrfSecret unsignedToken,
    headers_cookie req = Some header
    /\ parse header !! tokenCookieName = Some token /\ token <> ""
    /\ parse header !! secretCookieName = Some csrfSecret /\ csrfSecret <> ""
    /\ unsign token this_secret = Some unsignedToken
    /\ verifyToken csrfSecret unsignedToken = true
    /\ res' = setHeader_SetCookie res
                [serialize tokenCookieName
                   (sign (tokenize csrfSecret salt) this_secret) cookieOptions].
Proof.
  unfold verify.
  destruct (headers_cookie req) as [header|]; [|discriminate].
  destruct (parse header !! tokenCookieName) as [token|] eqn:Ht;
    [|discriminate].
  destruct (parse header !! secretCookieName) as [csrfSecret|] eqn:Hs;
    [|simpl; rewrite orb_true_r; discriminate].
  simpl.
  destruct (String.eqb token "") eqn:Htoken; [discriminate|].
  destruct (String.eqb csrfSecret "") eqn:Hsecret; [discriminate|]. simpl.
  destruct (unsign token this_secret) as [unsignedToken|] eqn:Hu;
    [|discriminate].
  simpl. destruct (String.eqb unsignedToken ""); [discriminate|]. simpl.
  destruct (verifyToken csrfSecret unsignedToken) eqn:Hv; [|discriminate].
  simpl. intros [= <-].
  apply String.eqb_neq in Htoken, Hsecret.
  exists header, token, csrfSecret, unsignedToken. repeat split; done.
Qed.

(** [setup], by contrast, writes the secret cookie and the token cookie. *)
Lemma setup_writes_both_cookies (req : IncomingMessage) (res : ServerResponse)
    (fresh salt : string) :
  setup req (PagesRouter res) fresh salt
  = PagesRouter
      {| set_cookie :=
           Some [serialize secretCookieName (getSecret req fresh) cookieOptions;
                 serialize tokenCookieName
                   (sign (tokenize (getSecret req fresh) salt) this_secret)
                   cookieOptions] |}.
Proof. reflexivity. Qed.

(** C10. A completed verification leaves one [Set-Cookie] on the response:
    the token cookie [XSRF-TOKEN], with a signed token made from the secret
    that the request carries and the salt drawn.  No cookie named
    [csrfSecret] is written, after one verification or after any number of
    them, and a request whose cookies verified once verifies again every
    time, against the same secret. *)
Theorem verify_never_writes_secret (req : IncomingMessage) :
  (forall res salt res',
      verify req res salt = Done res' ->
      exists header csrfSecret,
        headers_cookie req = Some header
        /\ parse header !! secretCookieName = Some csrfSecret
        /\ set_cookie res'
           = Some [serialize tokenCookieName
                     (sign (tokenize csrfSecret salt) this_secret)
                     cookieOptions])
  /\ (forall res salts res',
        verifyEach req res salts = Done res' ->
        (salts = [] /\ res' = res)
        \/ exists cookie,
             set_cookie res' = Some [cookie]
             /\ cookie_name cookie = tokenCookieName
             /\ cookie_name cookie <> secretCookieName)
  /\ (forall res salt res',
        verify req res salt = Done res' ->
        forall res2 salts, exists res2', verifyEach req res2 salts = Done res2').
Proof.
  split; [|split].
  - intros res salt res' Hv. apply verify_Done_inv in Hv.
    destruct Hv as (header & token & csrfSecret & unsignedToken & Hh & _ & _
                    & Hs & _ & _ & _ & ->).
    by exists header, csrfSecret.
  - intros res salts. revert res.
    induction salts as [|salt salts IH]; intros res res' Hrun.
    + left. simpl in Hrun. by injection Hrun as <-.
    + right. simpl in Hrun.
      destruct (verify req res salt) as [res1|e] eqn:Hv; [|discriminate].
      destruct (IH res1 res' Hrun) as [[-> ->]|Hlater]; [|exact Hlater].
      apply verify_Done_inv in Hv.
      destruct Hv as (header & token & csrfSecret & unsignedToken & _ & _ & _
                      & _ & _ & _ & _ & ->).
      eexists. split; [reflexivity|]. split; [reflexivity|]. discriminate.
  - intros res salt res' Hv res2 salts. revert res2.
    apply verify_Done_inv in Hv.
    destruct Hv as (header & token & csrfSecret & unsignedToken & Hh & Ht
                    & Htoken & Hs & Hsecret & Hu & Hvt & _).
    induction salts as [|salt2 salts IH]; intros res2; [by eexists|].
    simpl.
    rewrite (verify_Done_intro req res2 salt2 header token csrfSecret
               unsignedToken Hh Ht Htoken Hs Hsecret Hu Hvt).
    apply IH.
Qed.

(** *** Further properties of tokens *)

Lemma indexOf_noDash (token : string) :
  forall index, indexOf "-" token = Some index ->
    noDash (String.substring 0 index token) = true.
Proof.
  induction token as [|a token IH]; intros index Hindex; [done|].
  simpl in Hindex. destruct (Ascii.eqb a "-") eqn:Ha.
  - injection Hindex as <-. reflexivity.
  - destruct (indexOf "-" token) as [i|]; [|done].
    injection Hindex as <-. simpl. rewrite Ha. simpl. by apply IH.
Qed.

Lemma eqb_append_prefix (p a b : string) :
  String.eqb (p +:+ a) (p +:+ b) = String.eqb a b.
Proof.
  induction p as [|c p IH]; simpl; [done|]. by rewrite Ascii.eqb_refl.
Qed.

(** X10. A token verifies against a secret exactly when it is the token
    made from that secret and some salt without the separator; the token
    made from one secret verifies against another exactly when the two
    digests are equal. *)
Theorem verifyToken_exactly_tokenized (secret : string) :
  (forall token,
      verifyToken secret token = true
      <-> exists salt, noDash salt = true /\ token = tokenize secret salt)
  /\ (forall other salt,
        noDash salt = true ->
        verifyToken other (tokenize secret salt)
        = String.eqb (hash (salt +:+ "-" +:+ secret))
            (hash (salt +:+ "-" +:+ other))).
Proof.
  split.
  - intros token. split.
    + intros Hv. apply verifyToken_sound in Hv as (index & Hindex & Htoken).
      exists (String.substring 0 index token).
      split; [by apply indexOf_noDash|done].
    + intros (salt & Hsalt & ->). by apply verifyToken_tokenize.
  - intros other salt Hsalt. unfold verifyToken.
    assert (tokenize secret salt
            = salt +:+ String "-" (hash (salt +:+ "-" +:+ secret))) as Hshape
      by reflexivity.
    rewrite Hshape at 1. rewrite (index_dash_after_salt _ _ Hsalt).
    rewrite Hshape at 2. rewrite substring_salt.
    unfold tokenize. rewrite eqb_append_prefix. by simpl.
Qed.

Lemma indexOf_append_None (c : ascii) (a b : string) :
  indexOf c a = None -> indexOf c b = None -> indexOf c (a +:+ b) = None.
Proof.
  intros Ha Hb. induction a as [|x a IH]; simpl in *; [done|].
  destruct (Ascii.eqb x c); [done|].
  destruct (indexOf c a); [done|]. by rewrite IH.
Qed.

(** A character that is not in the replacement, and is the one replaced or
    is not in the string, is not in the result. *)
Lemma replaceAll_absent (d c : ascii) (by_ str : string) :
  indexOf d by_ = None ->
  d = c \/ indexOf d str = None ->
  indexOf d (replaceAll c by_ str) = None.
Proof.
  intros Hby Hcase. induction str as [|a str IH]; simpl; [done|].
  assert (d = c \/ indexOf d str = None) as Hrest.
  { destruct Hcase as [->|Hstr]; [by left|right].
    simpl in Hstr. destruct (Ascii.eqb a d); [done|].
    by destruct (indexOf d str). }
  destruct (Ascii.eqb a c) eqn:Hac.
  - apply indexOf_append_None; [done|by apply IH].
  - simpl. destruct (Ascii.eqb a d) eqn:Had.
    + apply Ascii.eqb_eq in Had. subst d.
      destruct Hcase as [->|Hstr].
      * by rewrite Ascii.eqb_refl in Hac.
      * simpl in Hstr. by rewrite Ascii.eqb_refl in Hstr.
    + by rewrite IH.
Qed.

(** X11. Whatever the digest, [hash] returns a string without the
    characters [+], [/] and [=]. *)
Theorem hash_is_url_safe (str : string) :
  indexOf "+" (hash str) = None
  /\ indexOf "/" (hash str) = None
  /\ indexOf "=" (hash str) = None.
Proof.
  unfold hash. split; [|split].
  - apply replaceAll_absent; [done|right].
    apply replaceAll_absent; [done|right].
    apply replaceAll_absent; [done|by left].
  - apply replaceAll_absent; [done|right].
    apply replaceAll_absent; [done|by left].
  - apply replaceAll_absent; [done|by left].
Qed.

Lemma getSecret_nonempty (req : IncomingMessage) (fresh : string) :
  fresh <> "" -> getSecret req fresh <> "".
Proof.
  intros Hfresh. unfold getSecret.
  destruct (truthy_str (headers_cookie req)); [|done].
  destruct (headers_cookie req) as [header|]; [|done].
  destruct (parse header !! toLowerCase secretCookieName) as [secret|] eqn:Hs;
    simpl; [|done].
  destruct (String.eqb secret "") eqn:He; simpl; [done|].
  by apply String.eqb_neq.
Qed.

(** The cookies that [setup] left on the response are the cookies that the
    cookie header [header] carries. *)
Definition sentBack (issued : SetupResponse) (header : string) : Prop :=
  match issued with
  | PagesRouter res =>
      forall cookie, In cookie (default [] (set_cookie res)) ->
        parse header !! cookie_name cookie = Some (cookie_value cookie)
  | AppRouter cookies =>
      forall name v options, cookies !! name = Some (v, options) ->
        parse header !! name = Some v
  | OtherResponse => False
  end.

(** X12. A request that carries the cookies that [setup] wrote passes
    [verify], which sets a new token for the same secret: provided the
    random secret is not empty, the salt has no separator, and [unsign]
    gives back the value that [sign] signed, which is not empty when
    signed. *)
Theorem setup_then_verify (req : IncomingMessage) (res : SetupResponse)
    (fresh salt header : string) (res2 : ServerResponse) (salt2 : string) :
  fresh <> "" -> noDash salt = true ->
  sign (tokenize (getSecret req fresh) salt) this_secret <> "" ->
  unsign (sign (tokenize (getSecret req fresh) salt) this_secret) this_secret
  = Some (tokenize (getSecret req fresh) salt) ->
  sentBack (setup req res fresh salt) header ->
  verify {| headers_cookie := Some header |} res2 salt2
  = Done (setHeader_SetCookie res2
            [serialize tokenCookieName
               (sign (tokenize (getSecret req fresh) salt2) this_secret)
               cookieOptions]).
Proof.
  intros Hfresh Hsalt Hsigned Hunsign Hback.
  assert (parse header !! secretCookieName = Some (getSecret req fresh)
          /\ parse header !! tokenCookieName
             = Some (sign (tokenize (getSecret req fresh) salt) this_secret))
    as [Hs Ht].
  { destruct res as [res|cookies|]; simpl in Hback; [| |done].
    - split.
      + apply (Hback (serialize secretCookieName _ cookieOptions)). by left.
      + apply (Hback (serialize tokenCookieName _ cookieOptions)).
        right. by left.
    - split.
      + apply (Hback secretCookieName _ cookieOptions).
        rewrite lookup_insert_ne by done. by rewrite lookup_insert_eq.
      + apply (Hback tokenCookieName _ cookieOptions).
        by rewrite lookup_insert_eq. }
  apply (verify_Done_intro {| headers_cookie := Some header |} res2 salt2
           header
           (sign (tokenize (getSecret req fresh) salt) this_secret)
           (getSecret req fresh)
           (tokenize (getSecret req fresh) salt)); try done.
  - by apply getSecret_nonempty.
  - by apply verifyToken_tokenize.
Qed.

End RealCSRF.

(** X13. [setup] never reads the cookie [csrfSecret] that it writes and
    that [verify] reads: it looks the secret up under the lowercased name,
    so the value of the [csrfSecret] cookie of the request does not change
    what it does. *)
Theorem setup_ignores_csrfSecret_cookie
    (parse : string -> gmap string string) (sign : string -> string -> string)
    (sha1_base64 : string -> string) (this_secret : string) (production : bool)
    (req : IncomingMessage) (res : SetupResponse) (fresh salt value : string) :
  getSecret (fun header => <[secretCookieName := value]> (parse header))
    req fresh
  = getSecret parse req fresh
  /\ setup (fun header => <[secretCookieName := value]> (parse header))
       sign sha1_base64 this_secret production req res fresh salt
     = setup parse sign sha1_base64 this_secret production req res fresh salt.
Proof.
  assert (getSecret (fun header => <[secretCookieName := value]> (parse header))
            req fresh
          = getSecret parse req fresh) as Hsecret.
  { unfold getSecret. destruct (truthy_str (headers_cookie req)); [|done].
    destruct (headers_cookie req) as [header|]; [|done].
    by rewrite lookup_insert_ne. }
  split; [done|]. unfold setup. by rewrite Hsecret.
Qed.

(** *** Concrete inputs

    Stand-ins for the packages, defined on the two cookie headers used
    below: the signature of a value is the suffix [".sig"], every digest is
    ["H"], and the signing key is ["key"]. *)

Definition headerWithSecret : string := "XSRF-TOKEN=a1-H.sig; csrfSecret=s3".
Definition headerWithEmptySecret : string := "XSRF-TOKEN=a1-H.sig; csrfSecret=".

Definition tableParse (header : string) : gmap string string :=
  if String.eqb header headerWithSecret then
    {[ "XSRF-TOKEN" := "a1-H.sig"; "csrfSecret" := "s3" ]}
  else if String.eqb header headerWithEmptySecret then
    {[ "XSRF-TOKEN" := "a1-H.sig"; "csrfSecret" := "" ]}
  else ∅.

Definition suffixSign (value key : string) : string := value +:+ ".sig".

Definition tableUnsign (input key : string) : option string :=
  if String.eqb input "a1-H.sig" then Some "a1-H"
  else if String.eqb input "b2-H.sig" then Some "b2-H"
  else None.

Definition constantDigest (str : string) : string := "H".

Definition emptyResponse : ServerResponse := {| set_cookie := None |}.

Example hash_base64url :
  hash (fun _ => "a+b/c+d/e==") "x" = "a-b_c-d_e".
Proof. reflexivity. Qed.

Example toLowerCase_secretCookieName :
  toLowerCase secretCookieName = "csrfsecret".
Proof. reflexivity. Qed.

Example verify_rotates_token :
  verify tableParse suffixSign tableUnsign constantDigest "key" true
    {| headers_cookie := Some headerWithSecret |} emptyResponse "b2"
  = Done {| set_cookie :=
              Some [{| cookie_name := "XSRF-TOKEN";
                       cookie_value := "b2-H.sig";
                       cookie_options :=
                         {| httpOnly := true; path := "/"; sameSite := "lax";
                            secure := true |} |}] |}.
Proof. vm_compute. reflexivity. Qed.

(** C6, the claim as stated fails: the request has a cookie header, the
    token cookie and the secret cookie are both in it, the signature of the
    token is right and the token verifies against the secret of the cookie,
    which is the empty string; verification throws all the same. *)
Lemma verify_empty_secret_cookie_throws :
  headers_cookie {| headers_cookie := Some headerWithEmptySecret |} <> None
  /\ tableParse headerWithEmptySecret !! "XSRF-TOKEN" = Some "a1-H.sig"
  /\ tableParse headerWithEmptySecret !! "csrfSecret" = Some ""
  /\ tableUnsign "a1-H.sig" "key" = Some "a1-H"
  /\ verifyToken constantDigest "" "a1-H" = true
  /\ verify tableParse suffixSign tableUnsign constantDigest "key" true
       {| headers_cookie := Some headerWithEmptySecret |} emptyResponse "b2"
     = Throw InvalidCSRFError.
Proof.
  split; [discriminate|]. repeat split; vm_compute; reflexivity.
Qed.

(** A witness of X12: the cookies that [setup] writes for a request
    without cookies, sent back. *)
Lemma setup_then_verify_witness :
  verify tableParse suffixSign tableUnsign constantDigest "key" true
    {| headers_cookie := Some headerWithSecret |} emptyResponse "b2"
  = Done (setHeader_SetCookie emptyResponse
            [serialize tokenCookieName
               (suffixSign
                  (tokenize constantDigest
                     (getSecret tableParse {| headers_cookie := None |} "s3")
                     "b2") "key")
               (cookieOptions true)]).
Proof.
  apply (setup_then_verify tableParse suffixSign tableUnsign constantDigest
           "key" true {| headers_cookie := None |}
           (PagesRouter emptyResponse) "s3" "a1" headerWithSecret
           emptyResponse "b2");
    [discriminate|reflexivity|discriminate|reflexivity|].
  intros cookie Hcookie. simpl in Hcookie.
  destruct Hcookie as [<-|[<-|[]]]; vm_compute; reflexivity.
Defined.

End CSRF.

(** ** Internal note writer *)

Module InternalNoteWriter.

(** [T | null | undefined], where the difference is passed on to the query. *)
Inductive nullable (A : Type) : Type :=
| undefined
| null
| value (a : A).
Arguments undefined {A}.
Arguments null {A}.
Arguments value {A} a.

Record InternalNote := {
  note_id : Z;
  note_name : string;
  note_value : option string;
}.

Record Host := { host_user_id : Z }.

(** [owner?: { id: number | null } | null]. *)
Record Owner := { owner_id : option Z }.

Record EventType := {
  hosts : list Host;
  owner : option Owner;
}.

Record BookingWithEventType := {
  booking_id : Z;
  eventType : EventType;
}.

(** The [data] of [prisma.bookingInternalNote.create]. *)
Record BookingInternalNoteData := {
  bookingId : Z;
  text : option string;
  notePresetId : option Z;
  createdBy : Z;
}.

(** The queries sent to the database, in the order they are sent. *)
Inductive PrismaCall : Type :=
| internalNotePreset_findFirstOrThrow (teamid : nullable Z) (id : Z)
| bookingInternalNote_create (data : BookingInternalNoteData).

(** What a rejected promise carries. *)
Inductive Exception : Type :=
| Http (e : HttpError)
| NotFoundError.          (* thrown by [findFirstOrThrow] *)

Inductive outcome (A : Type) : Type :=
| Resolved (a : A)
| Rejected (e : Exception).
Arguments Resolved {A} a.
Arguments Rejected {A} e.

(** A computation that sends queries: the queries sent, then its outcome. *)
Definition Prisma (A : Type) : Type := list PrismaCall * outcome A.

Definition ret {A : Type} (a : A) : Prisma A := ([], Resolved a).

Definition throw {A : Type} (e : Exception) : Prisma A := ([], Rejected e).

Definition bind {A B : Type} (m : Prisma A) (k : A -> Prisma B) : Prisma B :=
  match m with
  | (calls, Resolved a) => let '(calls', r) := k a in (calls ++ calls', r)
  | (calls, Rejected e) => (calls, Rejected e)
  end.

Notation "x <- m ;; k" := (bind m (fun x => k))
  (at level 100, m at next level, right associativity).

Definition forbidden : HttpError :=
  {| statusCode := 403;
     message := "You do not have permission to add an internal note to this booking." |}.

Section HandleInternalNote.

(** The table of presets, as [prisma.internalNotePreset.findFirst] answers
    for the filter [{ teamid, id }]: whether a row matches. *)
Variable presetFound : nullable Z -> Z -> bool.

Definition findFirstOrThrow (teamid : nullable Z) (id : Z) : Prisma unit :=
  ([internalNotePreset_findFirstOrThrow teamid id],
   if presetFound teamid id then Resolved tt else Rejected NotFoundError).

(** [create] resolves with the row made from [data]. *)
Definition create (data : BookingInternalNoteData)
    : Prisma BookingInternalNoteData :=
  ([bookingInternalNote_create data], Resolved data).

Definition handleInternalNote (internalNote : InternalNote)
    (booking : BookingWithEventType) (userId : Z) (teamId : nullable Z)
    : Prisma BookingInternalNoteData :=
  let userIsHost :=
    find (fun host => Z.eqb (host_user_id host) userId)
      (hosts (eventType booking)) in
  let userIsOwnerOfEventType :=
    match owner (eventType booking) with
    | Some o => bool_decide (owner_id o = Some userId)
    | None => false
    end in
  if negb (bool_decide (is_Some userIsHost)) && negb userIsOwnerOfEventType then
    throw (Http forbidden)
  else if Z.eqb (note_id internalNote) (-1) then
    create {| bookingId := booking_id booking;
              text := note_value internalNote;
              notePresetId := None;
              createdBy := userId |}
  else
    _ <- findFirstOrThrow teamId (note_id internalNote) ;;
    create {| bookingId := booking_id booking;
              text := None;
              notePresetId := Some (note_id internalNote);
              createdBy := userId |}.

(** *** Properties of the note writer *)

(** The user is one of the hosts of the booking's event type. *)
Definition isHost (booking : BookingWithEventType) (userId : Z) : Prop :=
  exists host,
    In host (hosts (eventType booking)) /\ host_user_id host = userId.

(** The user is the owner of the booking's event type. *)
Definition isOwner (booking : BookingWithEventType) (userId : Z) : Prop :=
  exists o, owner (eventType booking) = Some o /\ owner_id o = Some userId.

(** The notes that a sequence of queries creates. *)
Definition notesCreated (calls : list PrismaCall)
    : list BookingInternalNoteData :=
  omap (fun call =>
          match call with
          | bookingInternalNote_create data => Some data
          | _ => None
          end) calls.

(** The preset lookups of a sequence of queries. *)
Definition presetLookups (calls : list PrismaCall) : list (nullable Z * Z) :=
  omap (fun call =>
          match call with
          | internalNotePreset_findFirstOrThrow teamid id => Some (teamid, id)
          | _ => None
          end) calls.

Lemma userIsHost_isHost (booking : BookingWithEventType) (userId : Z) :
  is_Some (find (fun host => Z.eqb (host_user_id host) userId)
             (hosts (eventType booking)))
  <-> isHost booking userId.
Proof.
  unfold isHost. split.
  - intros [host Hfind]. apply find_some in Hfind as [Hin Heq].
    exists host. split; [done|]. by apply Z.eqb_eq.
  - intros [host [Hin Heq]].
    destruct (find _ _) as [h|] eqn:Hfind; [by eexists|].
    apply (find_none _ _ Hfind) in Hin. apply Z.eqb_neq in Hin. done.
Qed.

Lemma userIsOwner_isOwner (booking : BookingWithEventType) (userId : Z) :
  match owner (eventType booking) with
  | Some o => bool_decide (owner_id o = Some userId)
  | None => false
  end = true
  <-> isOwner booking userId.
Proof.
  unfold isOwner. destruct (owner (eventType booking)) as [o|].
  - rewrite bool_decide_eq_true. split; [by exists o|].
    by intros [o' [[= <-] Ho]].
  - split; [discriminate|]. by intros [o [? _]].
Qed.

(** The permission check of the handler passes exactly for hosts and owners. *)
Lemma permission_check (booking : BookingWithEventType) (userId : Z) :
  negb (bool_decide
          (is_Some (find (fun host => Z.eqb (host_user_id host) userId)
                      (hosts (eventType booking)))))
  && negb match owner (eventType booking) with
          | Some o => bool_decide (owner_id o = Some userId)
          | None => false
          end
  = false
  <-> isHost booking userId \/ isOwner booking userId.
Proof.
  rewrite andb_false_iff, !negb_false_iff, bool_decide_eq_true.
  by rewrite userIsHost_isHost, userIsOwner_isOwner.
Qed.

(** C7. For a user who is a host or the owner of the event type: with
    [internalNote.id = -1] the only query is the creation of a freeform
    note, no preset is looked up; with another id the preset is looked up
    for the team, and when none is found the handler fails with Not-Found
    and creates no note, and when one is found the note is created with
    that preset.  For any other user the handler throws the 403 error and
    sends no query. *)
Theorem handleInternalNote_permission_and_preset
    (internalNote : InternalNote) (booking : BookingWithEventType)
    (userId : Z) (teamId : nullable Z) :
  let run := handleInternalNote internalNote booking userId teamId in
  let freeform :=
    {| bookingId := booking_id booking; text := note_value internalNote;
       notePresetId := None; createdBy := userId |} in
  let preset :=
    {| bookingId := booking_id booking; text := None;
       notePresetId := Some (note_id internalNote); createdBy := userId |} in
  statusCode forbidden = 403
  /\ (~ (isHost booking userId \/ isOwner booking userId) ->
      run = ([], Rejected (Http forbidden)) /\ notesCreated (fst run) = [])
  /\ (isHost booking userId \/ isOwner booking userId ->
      (note_id internalNote = -1 ->
       run = ([bookingInternalNote_create freeform], Resolved freeform)
       /\ presetLookups (fst run) = []
       /\ notesCreated (fst run) = [freeform])
      /\ (note_id internalNote <> -1 ->
          presetFound teamId (note_id internalNote) = false ->
          run = ([internalNotePreset_findFirstOrThrow teamId
                    (note_id internalNote)],
                 Rejected NotFoundError)
          /\ notesCreated (fst run) = [])
      /\ (note_id internalNote <> -1 ->
          presetFound teamId (note_id internalNote) = true ->
          run = ([internalNotePreset_findFirstOrThrow teamId
                    (note_id internalNote);
                  bookingInternalNote_create preset],
                 Resolved preset)
          /\ notesCreated (fst run) = [preset])).
Proof.
  intros run freeform preset. subst run. unfold handleInternalNote.
  split; [reflexivity|]. split.
  - intros Hnot.
    destruct (negb _ && negb _) eqn:Hcheck; [done|].
    by apply permission_check in Hcheck.
  - intros Hmay. apply permission_check in Hmay. rewrite Hmay.
    split; [|split].
    + intros Hid. rewrite Hid. done.
    + intros Hid Hnone. apply Z.eqb_neq in Hid. rewrite Hid.
      unfold bind, findFirstOrThrow. by rewrite Hnone.
    + intros Hid Hsome. apply Z.eqb_neq in Hid. rewrite Hid.
      unfold bind, findFirstOrThrow. by rewrite Hsome.
Qed.

End HandleInternalNote.

(** *** Concrete inputs *)

Definition teamOnePresets (teamid : nullable Z) (id : Z) : bool :=
  match teamid with
  | value 1 => Z.eqb id 10 || Z.eqb id 11
  | _ => false
  end.

Definition hostedBooking : BookingWithEventType :=
  {| booking_id := 500;
     eventType := {| hosts := [ {| host_user_id := 7 |}; {| host_user_id := 8 |} ];
                     owner := Some {| owner_id := Some 9 |} |} |}.

Example freeform_note_by_host :
  handleInternalNote teamOnePresets
    {| note_id := -1; note_name := "Other"; note_value := Some "called back" |}
    hostedBooking 8 (value 1)
  = ([bookingInternalNote_create
        {| bookingId := 500; text := Some "called back";
           notePresetId := None; createdBy := 8 |}],
     Resolved {| bookingId := 500; text := Some "called back";
                 notePresetId := None; createdBy := 8 |}).
Proof. reflexivity. Qed.

Example preset_note_by_owner :
  handleInternalNote teamOnePresets
    {| note_id := 11; note_name := "No show"; note_value := None |}
    hostedBooking 9 (value 1)
  = ([internalNotePreset_findFirstOrThrow (value 1) 11;
      bookingInternalNote_create
        {| bookingId := 500; text := None;
           notePresetId := Some 11; createdBy := 9 |}],
     Resolved {| bookingId := 500; text := None;
                 notePresetId := Some 11; createdBy := 9 |}).
Proof. reflexivity. Qed.

Example missing_preset :
  handleInternalNote teamOnePresets
    {| note_id := 12; note_name := "Unknown"; note_value := None |}
    hostedBooking 7 (value 1)
  = ([internalNotePreset_findFirstOrThrow (value 1) 12],
     Rejected NotFoundError).
Proof. reflexivity. Qed.

Example note_by_stranger :
  handleInternalNote teamOnePresets
    {| note_id := -1; note_name := "Other"; note_value := Some "x" |}
    hostedBooking 3 (value 1)
  = ([], Rejected (Http forbidden)).
Proof. reflexivity. Qed.

End InternalNoteWriter.

(** ** Slot query normalizer: the end of the range *)

Module SlotsInput.

Local Open Scope nat_scope.

(** A valid Luxon [DateTime] in the zone UTC, by its calendar fields. *)
Record DateTime := {
  year : nat;
  month : nat;
  day : nat;
  hour : nat;
  minute : nat;
  second : nat;
  millisecond : nat;
}.

(** [dateTime.set({ hour, minute, second })]: in UTC every day has the
    time asked for, so the other fields stay. *)
Definition set_hour_minute_second (dateTime : DateTime) (h m s : nat)
    : DateTime :=
  {| year := year dateTime; month := month dateTime; day := day dateTime;
     hour := h; minute := m; second := s;
     millisecond := millisecond dateTime |}.

(** The test of [adjustEndTime]. *)
Definition atMidnight (dateTime : DateTime) : bool :=
  Nat.eqb (hour dateTime) 0 && Nat.eqb (minute dateTime) 0
  && Nat.eqb (second dateTime) 0.

Section AdjustEndTime.

(** [DateTime.fromISO(text, { zone: "utc" })], [None] for an invalid
    [DateTime], and [dateTime.toISO()] of a valid one.  On an invalid
    [DateTime] every field is [NaN], so the test fails, and [toISO()] is
    [null]. *)
Variable fromISO : string -> option DateTime.
Variable toISO : DateTime -> string.

Definition adjustEndTime (endTime : string) : option string :=
  match fromISO endTime with
  | None => None
  | Some dateTime =>
      let dateTime :=
        if atMidnight dateTime then set_hour_minute_second dateTime 23 59 59
        else dateTime in
      Some (toISO dateTime)
  end.

End AdjustEndTime.

(** *** Luxon on the format that [toISO] writes

    [YYYY-MM-DDTHH:mm:ss.SSSZ] with a year of four digits: the serializer,
    and the parser restricted to this format (Luxon reads other ISO 8601
    forms as well). *)
Module Luxon.

Definition digitChar (d : nat) : ascii := ascii_of_nat (48 + d).

Definition pad2 (n : nat) (rest : string) : string :=
  String (digitChar (n / 10)) (String (digitChar (n mod 10)) rest).

Definition pad3 (n : nat) (rest : string) : string :=
  String (digitChar (n / 100)) (pad2 (n mod 100) rest).

Definition pad4 (n : nat) (rest : string) : string :=
  pad2 (n / 100) (pad2 (n mod 100) rest).

Definition toISO (dateTime : DateTime) : string :=
  pad4 (year dateTime) (String "-"
  (pad2 (month dateTime) (String "-"
  (pad2 (day dateTime) (String "T"
  (pad2 (hour dateTime) (String ":"
  (pad2 (minute dateTime) (String ":"
  (pad2 (second dateTime) (String "."
  (pad3 (millisecond dateTime) "Z")))))))))))).

Definition isLeapYear (y : nat) : bool :=
  Nat.eqb (y mod 4) 0 && (negb (Nat.eqb (y mod 100) 0) || Nat.eqb (y mod 400) 0).

Definition daysInMonth (y m : nat) : nat :=
  match m with
  | 2 => if isLeapYear y then 29 else 28
  | 4 | 6 | 9 | 11 => 30
  | _ => 31
  end.

Definition validDateTime (dateTime : DateTime) : bool :=
  Nat.leb (year dateTime / 100) 99
  && Nat.leb 1 (month dateTime) && Nat.leb (month dateTime) 12
  && Nat.leb 1 (day dateTime)
  && Nat.leb (day dateTime) (daysInMonth (year dateTime) (month dateTime))
  && Nat.leb (hour dateTime) 23 && Nat.leb (minute dateTime) 59
  && Nat.leb (second dateTime) 59 && Nat.leb (millisecond dateTime) 999.

Definition digitOf (a : ascii) : option nat :=
  let n := nat_of_ascii a in
  if Nat.leb 48 n && Nat.leb n 57 then Some (n - 48) else None.

(** Reads [k] digits, most significant first, after the value [acc]. *)
Fixpoint digits (k : nat) (acc : nat) (text : string) : option (nat * string) :=
  match k with
  | 0 => Some (acc, text)
  | S k' =>
      match text with
      | EmptyString => None
      | String a rest =>
          match digitOf a with
          | Some d => digits k' (10 * acc + d) rest
          | None => None
          end
      end
  end.

Definition expect (c : ascii) (text : string) : option string :=
  match text with
  | String a rest => if Ascii.eqb a c then Some rest else None
  | EmptyString => None
  end.

Definition fromISO (text : string) : option DateTime :=
  '(y, text) ← digits 4 0 text;
  text ← expect "-" text;
  '(mo, text) ← digits 2 0 text;
  text ← expect "-" text;
  '(d, text) ← digits 2 0 text;
  text ← expect "T" text;
  '(h, text) ← digits 2 0 text;
  text ← expect ":" text;
  '(mi, text) ← digits 2 0 text;
  text ← expect ":" text;
  '(s, text) ← digits 2 0 text;
  text ← expect "." text;
  '(ms, text) ← digits 3 0 text;
  text ← expect "Z" text;
  let dateTime :=
    {| year := y; month := mo; day := d; hour := h; minute := mi;
       second := s; millisecond := ms |} in
  if String.eqb text "" && validDateTime dateTime then Some dateTime else None.

(** **** The parser reads back what the serializer writes *)

Lemma digitOf_digitChar (d : nat) : d < 10 -> digitOf (digitChar d) = Some d.
Proof.
  intros Hd. do 10 (destruct d as [|d]; [reflexivity|]). lia.
Qed.

Lemma digits_pad2 (n acc : nat) (rest : string) :
  n < 100 -> digits 2 acc (pad2 n rest) = Some (100 * acc + n, rest).
Proof.
  intros Hn. unfold pad2. cbn [digits].
  rewrite !digitOf_digitChar.
  - f_equal. f_equal. pose proof (Nat.div_mod_eq n 10). lia.
  - apply Nat.mod_upper_bound. lia.
  - apply Nat.Div0.div_lt_upper_bound. lia.
Qed.

Lemma digits_add (j k : nat) :
  forall acc text,
    digits (j + k) acc text
    = match digits j acc text with
      | Some (acc', rest) => digits k acc' rest
      | None => None
      end.
Proof.
  induction j as [|j IH]; intros acc text; [reflexivity|].
  cbn [Nat.add digits]. destruct text as [|a rest]; [reflexivity|].
  destruct (digitOf a) as [d|]; [apply IH|reflexivity].
Qed.

Lemma digits_digitChar (d acc : nat) (rest : string) :
  d < 10 -> digits 1 acc (String (digitChar d) rest) = Some (10 * acc + d, rest).
Proof. intros Hd. cbn [digits]. by rewrite digitOf_digitChar. Qed.

Lemma digits_pad3 (n : nat) (rest : string) :
  n < 1000 -> digits 3 0 (pad3 n rest) = Some (n, rest).
Proof.
  intros Hn. rewrite (digits_add 1 2). unfold pad3.
  rewrite digits_digitChar by (apply Nat.Div0.div_lt_upper_bound; lia).
  rewrite digits_pad2 by (apply Nat.mod_upper_bound; lia).
  f_equal. f_equal. pose proof (Nat.div_mod_eq n 100). lia.
Qed.

Lemma digits_pad4 (n : nat) (rest : string) :
  n / 100 < 100 -> digits 4 0 (pad4 n rest) = Some (n, rest).
Proof.
  intros Hn. rewrite (digits_add 2 2). unfold pad4.
  rewrite digits_pad2 by done.
  rewrite digits_pad2 by (apply Nat.mod_upper_bound; lia).
  f_equal. f_equal. pose proof (Nat.div_mod_eq n 100). lia.
Qed.

Lemma daysInMonth_le_31 (y m : nat) : daysInMonth y m <= 31.
Proof.
  unfold daysInMonth.
  do 12 (destruct m as [|m]; [try destruct (isLeapYear y); lia|]). lia.
Qed.

Lemma fromISO_toISO (dateTime : DateTime) :
  validDateTime dateTime = true -> fromISO (toISO dateTime) = Some dateTime.
Proof.
  intros Hvalid. pose proof Hvalid as Hv. unfold validDateTime in Hv.
  repeat (apply andb_true_iff in Hv; destruct Hv as [Hv ?]).
  repeat match goal with
         | H : Nat.leb _ _ = true |- _ => apply Nat.leb_le in H
         end.
  pose proof (daysInMonth_le_31 (year dateTime) (month dateTime)).
  unfold fromISO, toISO.
  rewrite digits_pad4 by lia. cbn [mbind option_bind expect Ascii.eqb Bool.eqb].
  rewrite digits_pad2 by lia. cbn [mbind option_bind expect Ascii.eqb Bool.eqb].
  rewrite digits_pad2 by lia. cbn [mbind option_bind expect Ascii.eqb Bool.eqb].
  rewrite digits_pad2 by lia. cbn [mbind option_bind expect Ascii.eqb Bool.eqb].
  rewrite digits_pad2 by lia. cbn [mbind option_bind expect Ascii.eqb Bool.eqb].
  rewrite digits_pad2 by lia. cbn [mbind option_bind expect Ascii.eqb Bool.eqb].
  rewrite digits_pad3 by lia. cbn [mbind option_bind expect Ascii.eqb Bool.eqb].
  rewrite !Nat.mul_0_r, !Nat.add_0_l.
  destruct dateTime as [y mo d h mi sec ms]. cbn [String.eqb andb].
  cbn [year month day hour minute second millisecond] in *.
  by rewrite Hvalid.
Qed.

End Luxon.

Example toISO_new_year :
  Luxon.toISO {| year := 2024; month := 1; day := 1; hour := 23; minute := 59;
                 second := 59; millisecond := 0 |}
  = "2024-01-01T23:59:59.000Z".
Proof. reflexivity. Qed.

Example fromISO_new_year :
  Luxon.fromISO "2024-01-01T10:30:00.000Z"
  = Some {| year := 2024; month := 1; day := 1; hour := 10; minute := 30;
            second := 0; millisecond := 0 |}.
Proof. reflexivity. Qed.

Example fromISO_february_30 : Luxon.fromISO "2023-02-30T10:30:00.000Z" = None.
Proof. reflexivity. Qed.

Example adjustEndTime_keeps_milliseconds :
  adjustEndTime Luxon.fromISO Luxon.toISO "2024-01-01T00:00:00.500Z"
  = Some "2024-01-01T23:59:59.500Z".
Proof. reflexivity. Qed.

Example adjustEndTime_invalid :
  adjustEndTime Luxon.fromISO Luxon.toISO "tomorrow" = None.
Proof. reflexivity. Qed.

Lemma atMidnight_true (dateTime : DateTime) :
  atMidnight dateTime = true
  <-> hour dateTime = 0 /\ minute dateTime = 0 /\ second dateTime = 0.
Proof.
  unfold atMidnight. rewrite !andb_true_iff, !Nat.eqb_eq. tauto.
Qed.

(** C1. The end time is parsed in UTC; when its hour, minute and second
    are all zero, they become 23, 59 and 59 and the date (and the
    milliseconds) stay; otherwise the [DateTime] is left as it is; the result
    is serialized again.  "2024-01-01T00:00:00.000Z" gives
    "2024-01-01T23:59:59.000Z", "2024-01-01T10:30:00.000Z" gives itself, and
    so does every string that [toISO] writes for a time of day other than
    00:00:00. *)
Theorem adjustEndTime_end_of_day :
  (forall (fromISO : string -> option DateTime) (toISO : DateTime -> string)
          (endTime : string),
      (fromISO endTime = None -> adjustEndTime fromISO toISO endTime = None)
      /\ (forall dateTime,
            fromISO endTime = Some dateTime ->
            (hour dateTime = 0 /\ minute dateTime = 0 /\ second dateTime = 0 ->
             adjustEndTime fromISO toISO endTime
             = Some (toISO {| year := year dateTime; month := month dateTime;
                              day := day dateTime;
                              hour := 23; minute := 59; second := 59;
                              millisecond := millisecond dateTime |}))
            /\ (~ (hour dateTime = 0 /\ minute dateTime = 0
                   /\ second dateTime = 0) ->
                adjustEndTime fromISO toISO endTime = Some (toISO dateTime))))
  /\ adjustEndTime Luxon.fromISO Luxon.toISO "2024-01-01T00:00:00.000Z"
     = Some "2024-01-01T23:59:59.000Z"
  /\ adjustEndTime Luxon.fromISO Luxon.toISO "2024-01-01T10:30:00.000Z"
     = Some "2024-01-01T10:30:00.000Z"
  /\ (forall dateTime,
        Luxon.validDateTime dateTime = true ->
        ~ (hour dateTime = 0 /\ minute dateTime = 0 /\ second dateTime = 0) ->
        adjustEndTime Luxon.fromISO Luxon.toISO (Luxon.toISO dateTime)
        = Some (Luxon.toISO dateTime)).
Proof.
  split; [|split; [reflexivity|split; [reflexivity|]]].
  - intros fromISO toISO endTime. unfold adjustEndTime. split.
    + by intros ->.
    + intros dateTime ->. split.
      * intros Hmid. apply atMidnight_true in Hmid. by rewrite Hmid.
      * intros Hnot. destruct (atMidnight dateTime) eqn:Hmid; [|done].
        by apply atMidnight_true in Hmid.
  - intros dateTime Hvalid Hnot. unfold adjustEndTime.
    rewrite (Luxon.fromISO_toISO _ Hvalid).
    destruct (atMidnight dateTime) eqn:Hmid; [|done].
    by apply atMidnight_true in Hmid.
Qed.

(** *** The slot query *)

(** An event type, by the fields that the normalizer reads or sets. *)
Record EventType := {
  et_id : Z;
  et_slug : string;
  et_teamId : option Z;
  et_length : Z;
}.

(** [GetSlotsInput_2024_09_04]: the fields of every form of the query, and
    the fields of the three forms, each present ([Some]) or not in the
    object received. *)
Record GetSlotsInput := {
  q_start : string;
  q_end : string;
  q_duration : option Z;
  q_timeZone : option string;
  q_eventTypeId : option Z;
  q_eventTypeSlug : option string;
  q_username : option string;
  q_usernames : option (list string);
  q_organizationSlug : option (option string);
}.

(** The object that [transformGetSlotsQuery] returns; [null] and
    [undefined] are both [None]. *)
Record SlotsQuery := {
  isTeamEvent : bool;
  startTime : string;
  endTime : option string;
  duration : option Z;
  eventTypeId : Z;
  eventTypeSlug : string;
  usernameList : list string;
  timeZone : option string;
  orgSlug : option string;
}.

(** A value, or the [NotFoundException] thrown with its message. *)
Inductive result (A : Type) : Type :=
| Ok (a : A)
| NotFoundException (message : string).
Arguments Ok {A} a.
Arguments NotFoundException {A} message.

Section TransformGetSlotsQuery.

Variable fromISO : string -> option DateTime.
Variable toISO : DateTime -> string.

(** [eventTypeRepository.getEventTypeById], [usersRepository.findByUsername]
    (the id of the user found), [eventTypeRepository.getUserEventTypeBySlug]
    and the constant [dynamicEvent] of the platform libraries. *)
Variable getEventTypeById : Z -> option EventType.
Variable findByUsername : option string -> option Z.
Variable getUserEventTypeBySlug : Z -> string -> option EventType.
Variable dynamicEvent : EventType.

Definition getEventType (input : GetSlotsInput) : result (option EventType) :=
  match q_eventTypeId input with
  | Some eventTypeId => Ok (getEventTypeById eventTypeId)
  | None =>
      match q_eventTypeSlug input with
      | Some eventTypeSlug =>
          match findByUsername (q_username input) with
          | None =>
              NotFoundException
                ("User with username "
                 +:+ default "undefined" (q_username input) +:+ " not found")
          | Some userId => Ok (getUserEventTypeBySlug userId eventTypeSlug)
          end
      | None =>
          Ok (Some (if truthy_num (q_duration input)
                    then {| et_id := et_id dynamicEvent;
                            et_slug := et_slug dynamicEvent;
                            et_teamId := et_teamId dynamicEvent;
                            et_length := default 0%Z (q_duration input) |}
                    else dynamicEvent))
      end
  end.

Definition transformGetSlotsQuery (query : GetSlotsInput) : result SlotsQuery :=
  match getEventType query with
  | NotFoundException message => NotFoundException message
  | Ok None => NotFoundException "Event Type not found"
  | Ok (Some eventType) =>
      Ok {| isTeamEvent := truthy_num (et_teamId eventType);
            startTime := q_start query;
            endTime := adjustEndTime fromISO toISO (q_end query);
            duration := q_duration query;
            eventTypeId := et_id eventType;
            eventTypeSlug := et_slug eventType;
            usernameList := default [] (q_usernames query);
            timeZone := q_timeZone query;
            orgSlug := mjoin (q_organizationSlug query) |}
  end.

(** X14. The normalizer throws in three cases only, each with its message:
    the query names an event type id that the repository does not have; it
    names a slug (and no id) and the user is not found; or the user is
    found and has no event type with the slug.  A query with neither id nor
    slug never throws. *)
Theorem transformGetSlotsQuery_throws_exactly (query : GetSlotsInput)
    (message : string) :
  transformGetSlotsQuery query = NotFoundException message
  <-> (exists eventTypeId,
         q_eventTypeId query = Some eventTypeId
         /\ getEventTypeById eventTypeId = None
         /\ message = "Event Type not found")
      \/ (exists eventTypeSlug,
            q_eventTypeId query = None
            /\ q_eventTypeSlug query = Some eventTypeSlug
            /\ findByUsername (q_username query) = None
            /\ message
               = "User with username "
                 +:+ default "undefined" (q_username query) +:+ " not found")
      \/ (exists eventTypeSlug userId,
            q_eventTypeId query = None
            /\ q_eventTypeSlug query = Some eventTypeSlug
            /\ findByUsername (q_username query) = Some userId
            /\ getUserEventTypeBySlug userId eventTypeSlug = None
            /\ message = "Event Type not found").
Proof.
  unfold transformGetSlotsQuery, getEventType.
  destruct (q_eventTypeId query) as [eventTypeId|].
  - destruct (getEventTypeById eventTypeId) as [eventType|] eqn:Hid; split.
    + discriminate.
    + intros [(i & [= <-] & Hnone & _)|[(slug & [=] & _)|(slug & u & [=] & _)]].
      congruence.
    + intros [= <-]. left. by exists eventTypeId.
    + intros [(i & _ & _ & ->)|[(slug & [=] & _)|(slug & u & [=] & _)]]. done.
  - destruct (q_eventTypeSlug query) as [eventTypeSlug|].
    + destruct (findByUsername (q_username query)) as [userId|] eqn:Huser.
      * destruct (getUserEventTypeBySlug userId eventTypeSlug) as [et|] eqn:Hslug;
          split.
        -- discriminate.
        -- intros [(i & [=] & _)|[(slug & _ & _ & [=] & _)
                   |(slug & u & _ & [= <-] & [= <-] & Hnone & _)]].
           congruence.
        -- intros [= <-]. right. right. by exists eventTypeSlug, userId.
        -- intros [(i & [=] & _)|[(slug & _ & _ & [=] & _)
                   |(slug & u & _ & _ & _ & _ & ->)]]. done.
      * split.
        -- intros [= <-]. right. left. by exists eventTypeSlug.
        -- intros [(i & [=] & _)|[(slug & _ & _ & _ & ->)
                   |(slug & u & _ & _ & [=] & _)]]. done.
    + split; [discriminate|].
      intros [(i & [=] & _)|[(slug & _ & [=] & _)|(slug & u & _ & [=] & _)]].
Qed.

(** X15. What the normalizer returns carries the start, the duration and
    the time zone of the query as they are, the usernames of the query or
    the empty list, and the end time adjusted: null, without an exception,
    when the end time does not parse.  For a query with neither id nor slug
    the event type id, the slug and the team flag are those of the dynamic
    event, whatever the duration. *)
Theorem transformGetSlotsQuery_result (query : GetSlotsInput) (r : SlotsQuery) :
  transformGetSlotsQuery query = Ok r ->
  startTime r = q_start query
  /\ duration r = q_duration query
  /\ timeZone r = q_timeZone query
  /\ usernameList r = default [] (q_usernames query)
  /\ endTime r = adjustEndTime fromISO toISO (q_end query)
  /\ (fromISO (q_end query) = None -> endTime r = None)
  /\ (q_eventTypeId query = None -> q_eventTypeSlug query = None ->
      eventTypeId r = et_id dynamicEvent
      /\ eventTypeSlug r = et_slug dynamicEvent
      /\ isTeamEvent r = truthy_num (et_teamId dynamicEvent)).
Proof.
  unfold transformGetSlotsQuery.
  destruct (getEventType query) as [[eventType|]|m] eqn:Het; try discriminate.
  intros [= <-]. simpl.
  split; [done|]. split; [done|]. split; [done|]. split; [done|].
  split; [done|]. split.
  - intros Hend. unfold adjustEndTime. by rewrite Hend.
  - intros Hid Hslug. unfold getEventType in Het.
    rewrite Hid, Hslug in Het. injection Het as <-.
    by destruct (truthy_num (q_duration query)).
Qed.

End TransformGetSlotsQuery.

(** A query that names an event type id is resolved by id: the slug and the
    username of the query, the users, the event types by slug and the
    dynamic event have no part in the result. *)
Lemma transformGetSlotsQuery_by_id_first
    (fromISO : string -> option DateTime) (toISO : DateTime -> string)
    (getEventTypeById : Z -> option EventType)
    (users users' : option string -> option Z)
    (bySlug bySlug' : Z -> string -> option EventType)
    (dynamicEvent dynamicEvent' : EventType)
    (start end_ : string) (duration : option Z) (timeZone : option string)
    (eventTypeId : Z) (slug slug' username username' : option string)
    (usernames : option (list string)) (organizationSlug : option (option string)) :
  transformGetSlotsQuery fromISO toISO getEventTypeById users bySlug dynamicEvent
    {| q_start := start; q_end := end_; q_duration := duration;
       q_timeZone := timeZone; q_eventTypeId := Some eventTypeId;
       q_eventTypeSlug := slug; q_username := username;
       q_usernames := usernames; q_organizationSlug := organizationSlug |}
  = transformGetSlotsQuery fromISO toISO getEventTypeById users' bySlug'
      dynamicEvent'
      {| q_start := start; q_end := end_; q_duration := duration;
         q_timeZone := timeZone; q_eventTypeId := Some eventTypeId;
         q_eventTypeSlug := slug'; q_username := username';
         q_usernames := usernames; q_organizationSlug := organizationSlug |}.
Proof. reflexivity. Qed.

(** *** Concrete inputs *)

Definition dynamic : EventType :=
  {| et_id := 0%Z; et_slug := "dynamic"; et_teamId := None; et_length := 30%Z |}.

Definition noEventType (eventTypeId : Z) : option EventType := None.
Definition noUser (username : option string) : option Z := None.
Definition noEventTypeOfUser (userId : Z) (slug : string) : option EventType :=
  None.

Definition dynamicQuery : GetSlotsInput :=
  {| q_start := "2024-01-01T00:00:00.000Z"; q_end := "2024-01-02T00:00:00.000Z";
     q_duration := Some 45%Z; q_timeZone := Some "Europe/Rome";
     q_eventTypeId := None; q_eventTypeSlug := None; q_username := None;
     q_usernames := Some ["alice"; "bob"]; q_organizationSlug := None |}.

Example transformGetSlotsQuery_dynamic :
  transformGetSlotsQuery Luxon.fromISO Luxon.toISO noEventType noUser
    noEventTypeOfUser dynamic dynamicQuery
  = Ok {| isTeamEvent := false;
          startTime := "2024-01-01T00:00:00.000Z";
          endTime := Some "2024-01-02T23:59:59.000Z";
          duration := Some 45%Z; eventTypeId := 0%Z; eventTypeSlug := "dynamic";
          usernameList := ["alice"; "bob"]; timeZone := Some "Europe/Rome";
          orgSlug := None |}.
Proof. reflexivity. Qed.

(** A witness of X15: a query with neither id nor slug. *)
Lemma transformGetSlotsQuery_result_witness :
  exists r,
    transformGetSlotsQuery Luxon.fromISO Luxon.toISO noEventType noUser
      noEventTypeOfUser dynamic dynamicQuery = Ok r
    /\ startTime r = q_start dynamicQuery
    /\ endTime r
       = adjustEndTime Luxon.fromISO Luxon.toISO (q_end dynamicQuery)
    /\ eventTypeId r = et_id dynamic.
Proof.
  eexists. split; [reflexivity|].
  pose proof (transformGetSlotsQuery_result Luxon.fromISO Luxon.toISO
                noEventType noUser noEventTypeOfUser dynamic dynamicQuery _
                eq_refl) as (Hstart & _ & _ & _ & Hend & _ & Hdynamic).
  split; [exact Hstart|]. split; [exact Hend|].
  exact (proj1 (Hdynamic eq_refl eq_refl)).
Defined.

End SlotsInput.
